(** * MessageRouter: a shallow embedding of [message_router.js]

    The router is a JavaScript class; its fields become the record
    [Router], and every method becomes a function that takes the router
    and returns the updated router, the listener callbacks it invoked and
    the method's return value.

    Modelling conventions.
    - JavaScript strings are [string]; the router only inspects their
      length, their first and last characters and the position of the
      last ['/'].  [Map] objects are [gmap string _].
    - Listener ids, message ids and priorities are integers ([nat], [Z]);
      the rounding of JavaScript numbers is not modelled.
    - [Date.now()] is an argument [now] of the methods that read the clock.
    - Listener callbacks are client code.  A callback is named by a handle
      and each invocation is recorded as a [Call]; a callback that throws
      is caught by the dispatcher and changes nothing else.
    - A callback may call back into the router.  The development has two
      layers.  The functions on [Router] describe calls during which no
      callback does so: the router a callback returns to is the router it
      was invoked on, and a dispatching method is a function of the router.
      Module [Live] describes the router as the source runs it, with
      callbacks that call its public methods from inside the dispatch
      loops; the last part of the file relates the two.
    - Console output and the status text of [getStatus] are not modelled. *)

From Stdlib Require Import ZArith String Ascii List DecimalString Permutation Sorted.
From stdpp Require Import base option list gmap strings.

Local Open Scope string_scope.
Local Open Scope Z_scope.
Local Open Scope nat_scope.
Local Open Scope list_scope.

(** ** JavaScript string primitives used by the router *)

(** [s.endsWith(c)] for a one-character [c]. *)
Fixpoint endsWith (s : string) (c : ascii) : bool :=
  match s with
  | EmptyString => false
  | String a rest =>
      match rest with
      | EmptyString => bool_decide (a = c)
      | String _ _ => endsWith rest c
      end
  end.

(** [s.slice(0, -1)]: the string without its last character. *)
Fixpoint slice_0_m1 (s : string) : string :=
  match s with
  | EmptyString => EmptyString
  | String a rest =>
      match rest with
      | EmptyString => EmptyString
      | String _ _ => String a (slice_0_m1 rest)
      end
  end.

(** [s.lastIndexOf(c)]; [None] stands for [-1]. *)
Fixpoint lastIndexOf (c : ascii) (s : string) : option nat :=
  match s with
  | EmptyString => None
  | String a rest =>
      match lastIndexOf c rest with
      | Some i => Some (S i)
      | None => if bool_decide (a = c) then Some 0 else None
      end
  end.

(** [n.toString()] for a non-negative integer. *)
Definition toString (n : nat) : string :=
  NilEmpty.string_of_uint (Nat.to_uint n).

(** ** Path hierarchy *)

Definition slash : ascii := "/"%char.

Definition normalizePath (path : string) : string :=
  let normalized :=
    if (1 <? String.length path) && endsWith path slash
    then slice_0_m1 path
    else path in
  match normalized with
  | EmptyString => String slash normalized
  | String a _ => if bool_decide (a = slash) then normalized else String slash normalized
  end.

Definition getParentPath (path : string) : string :=
  if bool_decide (path = "/") then ""
  else
    match lastIndexOf slash path with
    | None => "/"
    | Some 0 => "/"
    | Some lastSlash => String.substring 0 lastSlash path
    end.

(** The [while (currentPath !== '/')] loop of [getBubblingPaths]; [paths]
    is the array being filled.  [None] means the fuel ran out. *)
Fixpoint bubbling_loop (fuel : nat) (currentPath : string) (paths : list string)
  : option (list string) :=
  if bool_decide (currentPath = "/") then Some paths
  else
    match fuel with
    | 0 => None
    | S fuel' =>
        let parent := getParentPath currentPath in
        bubbling_loop fuel' parent
          (if bool_decide (parent = "") then paths else paths ++ [parent])
    end.

Definition getBubblingPaths_fuel (fuel : nat) (path : string) : option (list string) :=
  let currentPath := normalizePath path in
  bubbling_loop fuel currentPath [currentPath].

(** The loop shortens [currentPath] at every turn, so the length of the
    normalized path is enough fuel. *)
Definition getBubblingPaths (path : string) : list string :=
  default [] (getBubblingPaths_fuel (String.length (normalizePath path)) path).

(** ** Data model *)

Record Message := {
  msg_path : string;
  msg_data : string;
  msg_senderID : string;
  msg_receiverID : string;
  msg_timestamp : Z;
  msg_messageId : nat
}.

(** [lst_callback] is the handle of the callback function. *)
Record Listener := {
  lst_path : string;
  lst_callback : nat;
  lst_id : nat;
  lst_ownerID : string;
  lst_active : bool;
  lst_createdAt : Z
}.

(** [lock_mode] is a string, as in the source: [lockPath] stores whatever
    mode it is given. *)
Record Lock := {
  lock_path : string;
  lock_mode : string;
  lock_senderID : string;
  lock_senderOwner : string;
  lock_receiverID : string;
  lock_receiverOwner : string;
  lock_finalized : bool;
  lock_timestamp : Z
}.

Record QueuedMsg := {
  q_message : Message;
  q_senderPath : string;
  q_priority : Z
}.

(** One invocation [listener.callback(message, targetPath, message.senderID)]. *)
Record Call := {
  call_callback : nat;
  call_message : Message;
  call_path : string;
  call_senderID : string
}.

Record Router := {
  listeners : list Listener;
  messageQueue : list QueuedMsg;
  pathLocks : gmap string Lock;
  lockedPathQueues : gmap string (list QueuedMsg);
  nextListenerId : nat;
  nextMessageId : nat
}.

Module LockMode.
Definition STRICT : string := "STRICT".
Definition EXCLUSIVE : string := "EXCLUSIVE".
Definition ANY_SENDER : string := "ANY_SENDER".
Definition ANY_RECEIVER : string := "ANY_RECEIVER".
End LockMode.

Definition MAX_QUEUE_SIZE : nat := 50.

(** The constructor. *)
Definition new_MessageRouter : Router := {|
  listeners := [];
  messageQueue := [];
  pathLocks := ∅;
  lockedPathQueues := ∅;
  nextListenerId := 1;
  nextMessageId := 1
|}.

Definition set_listeners (r : Router) (ls : list Listener) : Router :=
  {| listeners := ls; messageQueue := messageQueue r; pathLocks := pathLocks r;
     lockedPathQueues := lockedPathQueues r; nextListenerId := nextListenerId r;
     nextMessageId := nextMessageId r |}.

Definition set_messageQueue (r : Router) (q : list QueuedMsg) : Router :=
  {| listeners := listeners r; messageQueue := q; pathLocks := pathLocks r;
     lockedPathQueues := lockedPathQueues r; nextListenerId := nextListenerId r;
     nextMessageId := nextMessageId r |}.

Definition set_pathLocks (r : Router) (m : gmap string Lock) : Router :=
  {| listeners := listeners r; messageQueue := messageQueue r; pathLocks := m;
     lockedPathQueues := lockedPathQueues r; nextListenerId := nextListenerId r;
     nextMessageId := nextMessageId r |}.

Definition set_lockedPathQueues (r : Router) (m : gmap string (list QueuedMsg)) : Router :=
  {| listeners := listeners r; messageQueue := messageQueue r; pathLocks := pathLocks r;
     lockedPathQueues := m; nextListenerId := nextListenerId r;
     nextMessageId := nextMessageId r |}.

Definition set_nextListenerId (r : Router) (n : nat) : Router :=
  {| listeners := listeners r; messageQueue := messageQueue r; pathLocks := pathLocks r;
     lockedPathQueues := lockedPathQueues r; nextListenerId := n;
     nextMessageId := nextMessageId r |}.

Definition set_nextMessageId (r : Router) (n : nat) : Router :=
  {| listeners := listeners r; messageQueue := messageQueue r; pathLocks := pathLocks r;
     lockedPathQueues := lockedPathQueues r; nextListenerId := nextListenerId r;
     nextMessageId := n |}.

(** JavaScript truthiness of a string: the empty string is falsy. *)
Definition truthy (s : string) : bool := negb (bool_decide (s = "")).

(** ** Lock admission and immediate dispatch *)

Definition validateMessageLock (r : Router) (message : Message) : bool :=
  let normalizedPath := normalizePath (msg_path message) in
  match pathLocks r !! normalizedPath with
  | None => true
  | Some lock =>
      let senderRejects :=
        truthy (lock_senderID lock)
        && negb (bool_decide (lock_senderID lock = msg_senderID message)) in
      let receiverRejects :=
        truthy (lock_receiverID lock)
        && negb (bool_decide (lock_receiverID lock = msg_receiverID message)) in
      if bool_decide (lock_mode lock = LockMode.STRICT) then
        if senderRejects then false else if receiverRejects then false else true
      else if bool_decide (lock_mode lock = LockMode.EXCLUSIVE) then
        if senderRejects then false else if receiverRejects then false else true
      else if bool_decide (lock_mode lock = LockMode.ANY_SENDER) then
        if receiverRejects then false else true
      else if bool_decide (lock_mode lock = LockMode.ANY_RECEIVER) then
        if senderRejects then false else true
      else true
  end.

(** The body of the two nested [for] loops for one target path and one
    listener. *)
Definition deliver (message : Message) (targetPath : string) (listener : Listener)
  : list Call :=
  if bool_decide (lst_path listener = targetPath) && lst_active listener then
    if truthy (msg_receiverID message)
       && negb (bool_decide (toString (lst_id listener) = msg_receiverID message))
    then []
    else [ {| call_callback := lst_callback listener; call_message := message;
              call_path := targetPath; call_senderID := msg_senderID message |} ]
  else [].

(** The two nested [for] loops of [processMessageImmediate], for callbacks
    that leave [this.listeners] and the listener objects alone while the
    loops run; [Live.paths_loop] iterates the array as the callbacks leave
    it. *)
Definition dispatch (ls : list Listener) (message : Message) : list Call :=
  flat_map (fun targetPath => flat_map (deliver message targetPath) ls)
           (getBubblingPaths (msg_path message)).

Definition processMessageImmediate (r : Router) (message : Message) (senderPath : string)
  : list Call * bool :=
  let normalizedPath := normalizePath (msg_path message) in
  if bool_decide (is_Some (pathLocks r !! normalizedPath)) then ([], false)
  else if negb (validateMessageLock r message) then ([], false)
  else (dispatch (listeners r) message, true).

(** ** Listener registry *)

Definition addListener (r : Router) (path : string) (callback : nat) (ownerID : string)
    (now : Z) : Router * nat :=
  let normalizedPath := normalizePath path in
  let id := nextListenerId r in
  let listener := {| lst_path := normalizedPath; lst_callback := callback; lst_id := id;
                     lst_ownerID := ownerID; lst_active := true; lst_createdAt := now |} in
  (set_listeners (set_nextListenerId r (S id)) (listeners r ++ [listener]), id).

(** [findIndex] followed by [splice(index, 1)]: [None] when no listener
    has the id. *)
Fixpoint remove_first_id (listenerId : nat) (ls : list Listener) : option (list Listener) :=
  match ls with
  | [] => None
  | l :: rest =>
      if bool_decide (lst_id l = listenerId) then Some rest
      else option_map (cons l) (remove_first_id listenerId rest)
  end.

Definition removeListener (r : Router) (listenerId : nat) : Router * bool :=
  match remove_first_id listenerId (listeners r) with
  | Some ls => (set_listeners r ls, true)
  | None => (r, false)
  end.

Fixpoint removeListeners_loop (r : Router) (listenerIds : list nat) (removedCount : nat)
  : Router * nat :=
  match listenerIds with
  | [] => (r, removedCount)
  | id :: rest =>
      let '(r', removed) := removeListener r id in
      removeListeners_loop r' rest (if removed then S removedCount else removedCount)
  end.

Definition removeListeners (r : Router) (listenerIds : list nat) : Router * nat :=
  removeListeners_loop r listenerIds 0.

Definition removeListenersByPath (r : Router) (path : string) : Router * nat :=
  let normalizedPath := normalizePath path in
  let initialLength := length (listeners r) in
  let kept := filter (fun l => lst_path l ≠ normalizedPath) (listeners r) in
  (set_listeners r kept, initialLength - length kept).

Definition removeListenersByOwner (r : Router) (ownerID : string) : Router * nat :=
  let initialLength := length (listeners r) in
  let kept := filter (fun l => lst_ownerID l ≠ ownerID) (listeners r) in
  (set_listeners r kept, initialLength - length kept).

Definition set_active (active : bool) (l : Listener) : Listener :=
  {| lst_path := lst_path l; lst_callback := lst_callback l; lst_id := lst_id l;
     lst_ownerID := lst_ownerID l; lst_active := active; lst_createdAt := lst_createdAt l |}.

(** [find] followed by the assignment to [listener.active]. *)
Fixpoint activate_first_id (listenerId : nat) (active : bool) (ls : list Listener)
  : option (list Listener) :=
  match ls with
  | [] => None
  | l :: rest =>
      if bool_decide (lst_id l = listenerId) then Some (set_active active l :: rest)
      else option_map (cons l) (activate_first_id listenerId active rest)
  end.

Definition setListenerActive (r : Router) (listenerId : nat) (active : bool)
  : Router * bool :=
  match activate_first_id listenerId active (listeners r) with
  | Some ls => (set_listeners r ls, true)
  | None => (r, false)
  end.

Definition clearListeners (r : Router) : Router := set_listeners r [].

(** ** Lock table *)

Definition lockPath (r : Router) (path mode ownerID senderID receiverID : string) (now : Z)
  : Router * bool :=
  let normalizedPath := normalizePath path in
  let existingFinalized :=
    match pathLocks r !! normalizedPath with
    | Some existing => lock_finalized existing
    | None => false
    end in
  if existingFinalized then (r, false)
  else
    let lock := {| lock_path := normalizedPath;
                   lock_mode := mode;
                   lock_senderID := senderID;
                   lock_senderOwner := if truthy senderID then ownerID else "";
                   lock_receiverID := receiverID;
                   lock_receiverOwner := if truthy receiverID then ownerID else "";
                   lock_finalized := false;
                   lock_timestamp := now |} in
    let r1 := set_pathLocks r (<[normalizedPath := lock]> (pathLocks r)) in
    let r2 :=
      match lockedPathQueues r1 !! normalizedPath with
      | Some _ => r1
      | None => set_lockedPathQueues r1 (<[normalizedPath := []]> (lockedPathQueues r1))
      end in
    (r2, true).

(** The [for ... of queuedMessages] loop of [unlockPath], when no callback
    it invokes calls back into the router; [Live.replay_loop] is the loop
    over the queue array and the router as the callbacks leave them. *)
Definition replay (r : Router) (queuedMessages : list QueuedMsg) : list Call :=
  flat_map (fun queuedMsg =>
              fst (processMessageImmediate r (q_message queuedMsg) (q_senderPath queuedMsg)))
           queuedMessages.

Definition unlockPath (r : Router) (path ownerID : string) : Router * list Call * bool :=
  let normalizedPath := normalizePath path in
  match pathLocks r !! normalizedPath with
  | None => (r, [], false)
  | Some lock =>
      if lock_finalized lock then (r, [], false)
      else if negb (bool_decide (lock_senderOwner lock = ownerID))
              && negb (bool_decide (lock_receiverOwner lock = ownerID))
      then (r, [], false)
      else
        let r1 := set_pathLocks r (delete normalizedPath (pathLocks r)) in
        let queuedMessages := default [] (lockedPathQueues r1 !! normalizedPath) in
        let calls := replay r1 queuedMessages in
        let r2 := set_lockedPathQueues r1 (delete normalizedPath (lockedPathQueues r1)) in
        (r2, calls, true)
  end.

Definition set_finalized (finalized : bool) (lock : Lock) : Lock :=
  {| lock_path := lock_path lock; lock_mode := lock_mode lock;
     lock_senderID := lock_senderID lock; lock_senderOwner := lock_senderOwner lock;
     lock_receiverID := lock_receiverID lock; lock_receiverOwner := lock_receiverOwner lock;
     lock_finalized := finalized; lock_timestamp := lock_timestamp lock |}.

Definition finalizeLock (r : Router) (path ownerID : string) : Router * bool :=
  let normalizedPath := normalizePath path in
  match pathLocks r !! normalizedPath with
  | None => (r, false)
  | Some lock =>
      if negb (bool_decide (lock_senderOwner lock = ownerID))
         && negb (bool_decide (lock_receiverOwner lock = ownerID))
      then (r, false)
      else (set_pathLocks r (<[normalizedPath := set_finalized true lock]> (pathLocks r)), true)
  end.

Definition getLockStatus (r : Router) (path : string) : option Lock :=
  pathLocks r !! normalizePath path.

Definition clearLocks (r : Router) : Router :=
  set_lockedPathQueues (set_pathLocks r ∅) ∅.

(** ** Sending and queueing *)

Definition sendMessage (r : Router) (path data senderID receiverID : string)
    (queueIfLocked : bool) (now : Z) : Router * list Call * bool :=
  let normalizedPath := normalizePath path in
  let message := {| msg_path := normalizedPath; msg_data := data;
                    msg_senderID := senderID; msg_receiverID := receiverID;
                    msg_timestamp := now; msg_messageId := nextMessageId r |} in
  let r1 := set_nextMessageId r (S (nextMessageId r)) in
  if bool_decide (is_Some (pathLocks r1 !! normalizedPath)) then
    if queueIfLocked then
      let queue := default [] (lockedPathQueues r1 !! normalizedPath) in
      let entry := {| q_message := message; q_senderPath := ""; q_priority := 0 |} in
      (set_lockedPathQueues r1 (<[normalizedPath := queue ++ [entry]]> (lockedPathQueues r1)),
       [], false)
    else (r1, [], false)
  else
    let '(calls, result) := processMessageImmediate r1 message "" in
    (r1, calls, result).

Definition queueMessage (r : Router) (path data senderID receiverID : string)
    (priority : Z) (now : Z) : Router * bool :=
  let r1 :=
    if MAX_QUEUE_SIZE <=? length (messageQueue r)
    then set_messageQueue r (tail (messageQueue r))
    else r in
  let message := {| msg_path := normalizePath path; msg_data := data;
                    msg_senderID := senderID; msg_receiverID := receiverID;
                    msg_timestamp := now; msg_messageId := nextMessageId r1 |} in
  let r2 := set_nextMessageId r1 (S (nextMessageId r1)) in
  let entry := {| q_message := message; q_senderPath := ""; q_priority := priority |} in
  (set_messageQueue r2 (messageQueue r2 ++ [entry]), true).

(** [Array.prototype.sort(compareFn)].  The language requires the sort to
    be stable, which fixes its result for a comparator that orders the
    elements consistently; it is modelled by a stable insertion sort:
    [x] goes in front of the first [y] with [compareFn x y <= 0]. *)
Fixpoint sort_insert {A : Type} (compareFn : A -> A -> Z) (x : A) (sorted : list A)
  : list A :=
  match sorted with
  | [] => [x]
  | y :: rest =>
      if (compareFn x y <=? 0)%Z then x :: sorted
      else y :: sort_insert compareFn x rest
  end.

Definition js_sort {A : Type} (compareFn : A -> A -> Z) (l : list A) : list A :=
  foldr (sort_insert compareFn) [] l.

(** The comparator [(a, b) => b.priority - a.priority]. *)
Definition byPriority (a b : QueuedMsg) : Z := (q_priority b - q_priority a)%Z.

(** The [while (this.messageQueue.length > 0)] loop of [processQueue]:
    every turn reads the queue from the router again.  [None] means the
    fuel ran out.  The callbacks invoked here leave the router alone;
    [Live.processQueue_loop] runs the calls they make. *)
Fixpoint processQueue_loop (fuel : nat) (r : Router) (calls : list Call)
  : option (Router * list Call) :=
  match messageQueue r with
  | [] => Some (r, calls)
  | queuedMsg :: rest =>
      match fuel with
      | 0 => None
      | S fuel' =>
          let r1 := set_messageQueue r rest in
          let '(cs, _) :=
            processMessageImmediate r1 (q_message queuedMsg) (q_senderPath queuedMsg) in
          processQueue_loop fuel' r1 (calls ++ cs)
      end
  end.

Definition processQueue_fuel (fuel : nat) (r : Router) : option (Router * list Call) :=
  processQueue_loop fuel (set_messageQueue r (js_sort byPriority (messageQueue r))) [].

(** One turn of the loop per queued entry: the length of the queue is
    enough fuel. *)
Definition processQueue (r : Router) : Router * list Call :=
  default (r, []) (processQueue_fuel (length (messageQueue r)) r).


Definition getLockedQueueSize (r : Router) : nat :=
  map_fold (fun _ queue total => total + length queue) 0 (lockedPathQueues r).

Definition clearQueue (r : Router) : Router := set_messageQueue r [].

(** ** The router as a state machine *)

Inductive Op : Type :=
| OpAddListener (path : string) (callback : nat) (ownerID : string) (now : Z)
| OpRemoveListener (listenerId : nat)
| OpRemoveListeners (listenerIds : list nat)
| OpRemoveListenersByPath (path : string)
| OpRemoveListenersByOwner (ownerID : string)
| OpSetListenerActive (listenerId : nat) (active : bool)
| OpClearListeners
| OpLockPath (path mode ownerID senderID receiverID : string) (now : Z)
| OpUnlockPath (path ownerID : string)
| OpFinalizeLock (path ownerID : string)
| OpClearLocks
| OpSendMessage (path data senderID receiverID : string) (queueIfLocked : bool) (now : Z)
| OpQueueMessage (path data senderID receiverID : string) (priority : Z) (now : Z)
| OpProcessQueue
| OpClearQueue.

(** One public call: the router after it and the callbacks it invoked,
    when these make no router calls ([Live.exec] runs the calls they
    make). *)
Definition step (r : Router) (op : Op) : Router * list Call :=
  match op with
  | OpAddListener path callback ownerID now =>
      (fst (addListener r path callback ownerID now), [])
  | OpRemoveListener listenerId => (fst (removeListener r listenerId), [])
  | OpRemoveListeners listenerIds => (fst (removeListeners r listenerIds), [])
  | OpRemoveListenersByPath path => (fst (removeListenersByPath r path), [])
  | OpRemoveListenersByOwner ownerID => (fst (removeListenersByOwner r ownerID), [])
  | OpSetListenerActive listenerId active =>
      (fst (setListenerActive r listenerId active), [])
  | OpClearListeners => (clearListeners r, [])
  | OpLockPath path mode ownerID senderID receiverID now =>
      (fst (lockPath r path mode ownerID senderID receiverID now), [])
  | OpUnlockPath path ownerID => fst (unlockPath r path ownerID)
  | OpFinalizeLock path ownerID => (fst (finalizeLock r path ownerID), [])
  | OpClearLocks => (clearLocks r, [])
  | OpSendMessage path data senderID receiverID queueIfLocked now =>
      fst (sendMessage r path data senderID receiverID queueIfLocked now)
  | OpQueueMessage path data senderID receiverID priority now =>
      (fst (queueMessage r path data senderID receiverID priority now), [])
  | OpProcessQueue => processQueue r
  | OpClearQueue => (clearQueue r, [])
  end.

(** A sequence of public calls, with all the callbacks invoked, in order. *)
Fixpoint run (r : Router) (ops : list Op) : Router * list Call :=
  match ops with
  | [] => (r, [])
  | op :: rest =>
      let '(r1, calls1) := step r op in
      let '(r2, calls2) := run r1 rest in
      (r2, calls1 ++ calls2)
  end.

(** The routers a client can see when callbacks make no router calls:
    those a sequence of public calls builds from a fresh one.  [Live.run]
    is the general case. *)
Definition reachable (r : Router) : Prop :=
  exists ops : list Op, fst (run new_MessageRouter ops) = r.

Definition is_clearLocks (op : Op) : bool :=
  match op with OpClearLocks => true | _ => false end.

(** ** Read-only queries *)

Definition getListenerIds (r : Router) (path : string) : list nat :=
  let normalizedPath := normalizePath path in
  map lst_id (filter (fun l => lst_path l = normalizedPath) (listeners r)).

Definition getListenerCount (r : Router) (path : option string) : nat :=
  match path with
  | None => length (listeners r)
  | Some path =>
      let normalizedPath := normalizePath path in
      length (filter (fun l => lst_path l = normalizedPath /\ lst_active l = true)
                     (listeners r))
  end.

Definition getActiveListenerCount (r : Router) : nat :=
  length (filter (fun l => lst_active l = true) (listeners r)).

(** ** Predicates used in the statements *)

(** [k] still carries a trailing slash that [normalizePath] would strip. *)
Definition trailing (k : string) : bool := (1 <? String.length k) && endsWith k slash.

(** The lock on [k] exists and is finalized. *)
Definition finalized_at (r : Router) (k : string) : Prop :=
  exists lock, pathLocks r !! k = Some lock /\ lock_finalized lock = true.





(** Every entry of a per-path queue is addressed to the path it is filed
    under. *)
Definition queues_addressed (r : Router) : Prop :=
  forall k queue, lockedPathQueues r !! k = Some queue ->
    Forall (fun e => msg_path (q_message e) = k) queue.

(** A path has a lock record exactly when it has a per-path queue. *)
Definition locks_have_queues (r : Router) : Prop :=
  forall k, is_Some (pathLocks r !! k) <-> is_Some (lockedPathQueues r !! k).

(** ** Routers used as concrete instances *)

(** [/x] locked with STRICT(sender = S, receiver = R) by owner O. *)
Definition locked_demo : Router :=
  fst (lockPath new_MessageRouter "/x" LockMode.STRICT "O" "S" "R" 0%Z).

Definition matching_message : Message :=
  {| msg_path := "/x"; msg_data := "d"; msg_senderID := "S"; msg_receiverID := "R";
     msg_timestamp := 0%Z; msg_messageId := 1 |}.

(** A root listener, and a lock on [/a] only. *)
Definition ancestor_demo : Router :=
  fst (run new_MessageRouter
         [OpAddListener "/" 7 "app" 0%Z;
          OpLockPath "/a" LockMode.STRICT "P" "S" "" 0%Z]).

(** A listener on [/a]; locks on [/a/] (reached through ["/a//"]) and on
    [/a]; one message sent to ["/a//"] while both are locked. *)
Definition double_slash_demo : Router :=
  fst (run new_MessageRouter
         [OpAddListener "/a" 7 "app" 0%Z;
          OpLockPath "/a//" LockMode.STRICT "O" "S" "" 0%Z;
          OpLockPath "/a" LockMode.STRICT "P" "S" "" 0%Z;
          OpSendMessage "/a//" "d" "S" "" true 0%Z]).

(** ** The bubbling chain *)

(** [s] starts with a slash. *)
Definition rooted (s : string) : Prop := exists rest, s = String slash rest.

(** Every element is followed by its parent, which is strictly shorter. *)
Fixpoint parent_chain (l : list string) : Prop :=
  match l with
  | a :: rest =>
      match rest with
      | b :: _ => b = getParentPath a /\ String.length b < String.length a
      | [] => True
      end /\ parent_chain rest
  | [] => True
  end.

(** * The router with callbacks that call back into it

    A listener callback runs inside the dispatch loop and may call any
    public method of the router.  [Live] is the semantics that follows
    this: arrays and listener objects live in a heap, because the loops
    of the source hold on to an array while callbacks push to it, splice
    it, or make the router drop it for a new one.

    A callback is client code; all that matters here is the sequence of
    router calls it makes.  [behaviour] gives that sequence from the
    history of callback invocations so far, the current one last: no
    two invocations share a history, so every run of every callback
    that acts on the router through its public methods is some
    [behaviour].  A callback that makes no router call has the empty
    sequence.  [None] is a run that needs more fuel. *)
Module Live.

Record Router := {
  objects : gmap nat Listener;
  arrays : gmap nat (list nat);
  queues : gmap nat (list QueuedMsg);
  nextRef : nat;
  listeners : nat;
  messageQueue : list QueuedMsg;
  pathLocks : gmap string Lock;
  lockedPathQueues : gmap string nat;
  nextListenerId : nat;
  nextMessageId : nat
}.

(** The constructor: [this.listeners] is a new empty array. *)
Definition new_MessageRouter : Router := {|
  objects := ∅; arrays := {[ 0 := [] ]}; queues := ∅; nextRef := 1;
  listeners := 0; messageQueue := []; pathLocks := ∅; lockedPathQueues := ∅;
  nextListenerId := 1; nextMessageId := 1
|}.

Definition set_objects (r : Router) (x : gmap nat Listener) : Router :=
  {| objects := x; arrays := arrays r; queues := queues r; nextRef := nextRef r;
     listeners := listeners r; messageQueue := messageQueue r; pathLocks := pathLocks r;
     lockedPathQueues := lockedPathQueues r; nextListenerId := nextListenerId r;
     nextMessageId := nextMessageId r |}.

Definition set_arrays (r : Router) (x : gmap nat (list nat)) : Router :=
  {| objects := objects r; arrays := x; queues := queues r; nextRef := nextRef r;
     listeners := listeners r; messageQueue := messageQueue r; pathLocks := pathLocks r;
     lockedPathQueues := lockedPathQueues r; nextListenerId := nextListenerId r;
     nextMessageId := nextMessageId r |}.

Definition set_queues (r : Router) (x : gmap nat (list QueuedMsg)) : Router :=
  {| objects := objects r; arrays := arrays r; queues := x; nextRef := nextRef r;
     listeners := listeners r; messageQueue := messageQueue r; pathLocks := pathLocks r;
     lockedPathQueues := lockedPathQueues r; nextListenerId := nextListenerId r;
     nextMessageId := nextMessageId r |}.

Definition set_nextRef (r : Router) (x : nat) : Router :=
  {| objects := objects r; arrays := arrays r; queues := queues r; nextRef := x;
     listeners := listeners r; messageQueue := messageQueue r; pathLocks := pathLocks r;
     lockedPathQueues := lockedPathQueues r; nextListenerId := nextListenerId r;
     nextMessageId := nextMessageId r |}.

Definition set_listeners (r : Router) (x : nat) : Router :=
  {| objects := objects r; arrays := arrays r; queues := queues r; nextRef := nextRef r;
     listeners := x; messageQueue := messageQueue r; pathLocks := pathLocks r;
     lockedPathQueues := lockedPathQueues r; nextListenerId := nextListenerId r;
     nextMessageId := nextMessageId r |}.

Definition set_messageQueue (r : Router) (x : list QueuedMsg) : Router :=
  {| objects := objects r; arrays := arrays r; queues := queues r; nextRef := nextRef r;
     listeners := listeners r; messageQueue := x; pathLocks := pathLocks r;
     lockedPathQueues := lockedPathQueues r; nextListenerId := nextListenerId r;
     nextMessageId := nextMessageId r |}.

Definition set_pathLocks (r : Router) (x : gmap string Lock) : Router :=
  {| objects := objects r; arrays := arrays r; queues := queues r; nextRef := nextRef r;
     listeners := listeners r; messageQueue := messageQueue r; pathLocks := x;
     lockedPathQueues := lockedPathQueues r; nextListenerId := nextListenerId r;
     nextMessageId := nextMessageId r |}.

Definition set_lockedPathQueues (r : Router) (x : gmap string nat) : Router :=
  {| objects := objects r; arrays := arrays r; queues := queues r; nextRef := nextRef r;
     listeners := listeners r; messageQueue := messageQueue r; pathLocks := pathLocks r;
     lockedPathQueues := x; nextListenerId := nextListenerId r;
     nextMessageId := nextMessageId r |}.

Definition set_nextListenerId (r : Router) (x : nat) : Router :=
  {| objects := objects r; arrays := arrays r; queues := queues r; nextRef := nextRef r;
     listeners := listeners r; messageQueue := messageQueue r; pathLocks := pathLocks r;
     lockedPathQueues := lockedPathQueues r; nextListenerId := x;
     nextMessageId := nextMessageId r |}.

Definition set_nextMessageId (r : Router) (x : nat) : Router :=
  {| objects := objects r; arrays := arrays r; queues := queues r; nextRef := nextRef r;
     listeners := listeners r; messageQueue := messageQueue r; pathLocks := pathLocks r;
     lockedPathQueues := lockedPathQueues r; nextListenerId := nextListenerId r;
     nextMessageId := x |}.

(** The elements of the listener array at [ref], and of the queue array
    at [ref]. *)
Definition array_at (r : Router) (ref : nat) : list nat := default [] (arrays r !! ref).
Definition queue_at (r : Router) (ref : nat) : list QueuedMsg := default [] (queues r !! ref).

(** The listener objects an array of references holds, in order. *)
Definition lookup_all (objs : gmap nat Listener) (refs : list nat) : list Listener :=
  omap (fun ref => objs !! ref) refs.

Definition deref (r : Router) (refs : list nat) : list Listener :=
  lookup_all (objects r) refs.

(** [this.listeners] read as a list of listeners. *)
Definition listeners_now (r : Router) : list Listener := deref r (array_at r (listeners r)).

Definition validateMessageLock (r : Router) (message : Message) : bool :=
  let normalizedPath := normalizePath (msg_path message) in
  match pathLocks r !! normalizedPath with
  | None => true
  | Some lock =>
      let senderRejects :=
        truthy (lock_senderID lock)
        && negb (bool_decide (lock_senderID lock = msg_senderID message)) in
      let receiverRejects :=
        truthy (lock_receiverID lock)
        && negb (bool_decide (lock_receiverID lock = msg_receiverID message)) in
      if bool_decide (lock_mode lock = LockMode.STRICT) then
        if senderRejects then false else if receiverRejects then false else true
      else if bool_decide (lock_mode lock = LockMode.EXCLUSIVE) then
        if senderRejects then false else if receiverRejects then false else true
      else if bool_decide (lock_mode lock = LockMode.ANY_SENDER) then
        if receiverRejects then false else true
      else if bool_decide (lock_mode lock = LockMode.ANY_RECEIVER) then
        if senderRejects then false else true
      else true
  end.

(** ** Methods that invoke no callback *)

(** A new object, then [this.listeners.push(listener)]: the array is
    extended in place. *)
Definition addListener (r : Router) (path : string) (callback : nat) (ownerID : string)
    (now : Z) : Router * nat :=
  let normalizedPath := normalizePath path in
  let id := nextListenerId r in
  let listener := {| lst_path := normalizedPath; lst_callback := callback; lst_id := id;
                     lst_ownerID := ownerID; lst_active := true; lst_createdAt := now |} in
  let ref := nextRef r in
  let r1 := set_nextRef (set_nextListenerId r (S id)) (S ref) in
  let r2 := set_objects r1 (<[ref := listener]> (objects r1)) in
  (set_arrays r2 (<[listeners r2 := array_at r2 (listeners r2) ++ [ref]]> (arrays r2)), id).

(** [findIndex] followed by [splice(index, 1)] on an array of references. *)
Fixpoint remove_first_id (objs : gmap nat Listener) (listenerId : nat) (refs : list nat)
  : option (list nat) :=
  match refs with
  | [] => None
  | ref :: rest =>
      if bool_decide (lst_id <$> objs !! ref = Some listenerId) then Some rest
      else cons ref <$> remove_first_id objs listenerId rest
  end.

(** The splice changes the array [this.listeners] in place. *)
Definition removeListener (r : Router) (listenerId : nat) : Router * bool :=
  match remove_first_id (objects r) listenerId (array_at r (listeners r)) with
  | Some refs => (set_arrays r (<[listeners r := refs]> (arrays r)), true)
  | None => (r, false)
  end.

Fixpoint removeListeners_loop (r : Router) (listenerIds : list nat) (removedCount : nat)
  : Router * nat :=
  match listenerIds with
  | [] => (r, removedCount)
  | id :: rest =>
      let '(r', removed) := removeListener r id in
      removeListeners_loop r' rest (if removed then S removedCount else removedCount)
  end.

Definition removeListeners (r : Router) (listenerIds : list nat) : Router * nat :=
  removeListeners_loop r listenerIds 0.

(** [this.listeners = <new array>]: the old array stays as it is. *)
Definition replace_listeners (r : Router) (refs : list nat) : Router :=
  let ref := nextRef r in
  set_listeners (set_nextRef (set_arrays r (<[ref := refs]> (arrays r))) (S ref)) ref.

Definition removeListenersByPath (r : Router) (path : string) : Router * nat :=
  let normalizedPath := normalizePath path in
  let old := array_at r (listeners r) in
  let kept := filter (fun ref => lst_path <$> objects r !! ref <> Some normalizedPath) old in
  (replace_listeners r kept, length old - length kept).

Definition removeListenersByOwner (r : Router) (ownerID : string) : Router * nat :=
  let old := array_at r (listeners r) in
  let kept := filter (fun ref => lst_ownerID <$> objects r !! ref <> Some ownerID) old in
  (replace_listeners r kept, length old - length kept).

(** [find]: the first reference whose object has the id. *)
Fixpoint find_id (objs : gmap nat Listener) (listenerId : nat) (refs : list nat)
  : option nat :=
  match refs with
  | [] => None
  | ref :: rest =>
      if bool_decide (lst_id <$> objs !! ref = Some listenerId) then Some ref
      else find_id objs listenerId rest
  end.

(** [listener.active = active] writes to the object, so every array that
    holds it sees the change. *)
Definition setListenerActive (r : Router) (listenerId : nat) (active : bool)
  : Router * bool :=
  match find_id (objects r) listenerId (array_at r (listeners r)) with
  | Some ref => (set_objects r (alter (set_active active) ref (objects r)), true)
  | None => (r, false)
  end.

Definition clearListeners (r : Router) : Router := replace_listeners r [].

Definition lockPath (r : Router) (path mode ownerID senderID receiverID : string) (now : Z)
  : Router * bool :=
  let normalizedPath := normalizePath path in
  let existingFinalized :=
    match pathLocks r !! normalizedPath with
    | Some existing => lock_finalized existing
    | None => false
    end in
  if existingFinalized then (r, false)
  else
    let lock := {| lock_path := normalizedPath;
                   lock_mode := mode;
                   lock_senderID := senderID;
                   lock_senderOwner := if truthy senderID then ownerID else "";
                   lock_receiverID := receiverID;
                   lock_receiverOwner := if truthy receiverID then ownerID else "";
                   lock_finalized := false;
                   lock_timestamp := now |} in
    let r1 := set_pathLocks r (<[normalizedPath := lock]> (pathLocks r)) in
    let r2 :=
      match lockedPathQueues r1 !! normalizedPath with
      | Some _ => r1
      | None =>
          let ref := nextRef r1 in
          set_lockedPathQueues
            (set_nextRef (set_queues r1 (<[ref := []]> (queues r1))) (S ref))
            (<[normalizedPath := ref]> (lockedPathQueues r1))
      end in
    (r2, true).

Definition finalizeLock (r : Router) (path ownerID : string) : Router * bool :=
  let normalizedPath := normalizePath path in
  match pathLocks r !! normalizedPath with
  | None => (r, false)
  | Some lock =>
      if negb (bool_decide (lock_senderOwner lock = ownerID))
         && negb (bool_decide (lock_receiverOwner lock = ownerID))
      then (r, false)
      else (set_pathLocks r (<[normalizedPath := set_finalized true lock]> (pathLocks r)), true)
  end.

Definition clearLocks (r : Router) : Router :=
  set_lockedPathQueues (set_pathLocks r ∅) ∅.

Definition queueMessage (r : Router) (path data senderID receiverID : string)
    (priority : Z) (now : Z) : Router * bool :=
  let r1 :=
    if MAX_QUEUE_SIZE <=? length (messageQueue r)
    then set_messageQueue r (tail (messageQueue r))
    else r in
  let message := {| msg_path := normalizePath path; msg_data := data;
                    msg_senderID := senderID; msg_receiverID := receiverID;
                    msg_timestamp := now; msg_messageId := nextMessageId r1 |} in
  let r2 := set_nextMessageId r1 (S (nextMessageId r1)) in
  let entry := {| q_message := message; q_senderPath := ""; q_priority := priority |} in
  (set_messageQueue r2 (messageQueue r2 ++ [entry]), true).

Definition clearQueue (r : Router) : Router := set_messageQueue r [].

(** ** Methods that dispatch *)

(** A router and the callback invocations so far. *)
Definition State : Type := Router * list Call.

Section Methods.

(** [invoke st call] runs the callback of [call]: the state when it
    returns. *)
Variable invoke : State -> Call -> option State.

(** [for (const listener of this.listeners)] for one target path.  The
    iterator holds the array [arr] it started on and its index [i], and
    reads the length and the element from the heap at every turn. *)
Fixpoint listeners_loop (fuel : nat) (st : State) (arr i : nat)
    (message : Message) (targetPath : string) : option State :=
  match fuel with
  | 0 => None
  | S fuel' =>
      match array_at (fst st) arr !! i with
      | None => Some st
      | Some ref =>
          match objects (fst st) !! ref with
          | None => listeners_loop fuel' st arr (S i) message targetPath
          | Some listener =>
              match deliver message targetPath listener with
              | [] => listeners_loop fuel' st arr (S i) message targetPath
              | call :: _ =>
                  st1 ← invoke st call;
                  listeners_loop fuel' st1 arr (S i) message targetPath
              end
          end
      end
  end.

(** [for (const targetPath of targetPaths)]: [this.listeners] is read
    anew for every target path. *)
Fixpoint paths_loop (fuel : nat) (st : State) (targetPaths : list string)
    (message : Message) : option State :=
  match targetPaths with
  | [] => Some st
  | targetPath :: rest =>
      st1 ← listeners_loop fuel st (listeners (fst st)) 0 message targetPath;
      paths_loop fuel st1 rest message
  end.

Definition processMessageImmediate (fuel : nat) (st : State) (message : Message)
    (senderPath : string) : option (State * bool) :=
  let normalizedPath := normalizePath (msg_path message) in
  if bool_decide (is_Some (pathLocks (fst st) !! normalizedPath)) then Some (st, false)
  else if negb (validateMessageLock (fst st) message) then Some (st, false)
  else
    st1 ← paths_loop fuel st (getBubblingPaths (msg_path message)) message;
    Some (st1, true).

(** [for (const queuedMsg of queuedMessages)] in [unlockPath]: the
    iterator holds the queue array [qref] and reads it from the heap at
    every turn. *)
Fixpoint replay_loop (fuel : nat) (st : State) (qref i : nat) : option State :=
  match fuel with
  | 0 => None
  | S fuel' =>
      match queue_at (fst st) qref !! i with
      | None => Some st
      | Some queuedMsg =>
          '(st1, _) ← processMessageImmediate fuel' st (q_message queuedMsg)
                        (q_senderPath queuedMsg);
          replay_loop fuel' st1 qref (S i)
      end
  end.

Definition unlockPath (fuel : nat) (st : State) (path ownerID : string)
  : option (State * bool) :=
  let r := fst st in
  let normalizedPath := normalizePath path in
  match pathLocks r !! normalizedPath with
  | None => Some (st, false)
  | Some lock =>
      if lock_finalized lock then Some (st, false)
      else if negb (bool_decide (lock_senderOwner lock = ownerID))
              && negb (bool_decide (lock_receiverOwner lock = ownerID))
      then Some (st, false)
      else
        let r1 := set_pathLocks r (delete normalizedPath (pathLocks r)) in
        st2 ← match lockedPathQueues r1 !! normalizedPath with
               | Some qref => replay_loop fuel (r1, snd st) qref 0
               | None => Some (r1, snd st)
               end;
        let r2 := fst st2 in
        Some (set_lockedPathQueues r2 (delete normalizedPath (lockedPathQueues r2)),
              snd st2, true)
  end.

Definition sendMessage (fuel : nat) (st : State) (path data senderID receiverID : string)
    (queueIfLocked : bool) (now : Z) : option (State * bool) :=
  let r := fst st in
  let normalizedPath := normalizePath path in
  let message := {| msg_path := normalizedPath; msg_data := data;
                    msg_senderID := senderID; msg_receiverID := receiverID;
                    msg_timestamp := now; msg_messageId := nextMessageId r |} in
  let r1 := set_nextMessageId r (S (nextMessageId r)) in
  if bool_decide (is_Some (pathLocks r1 !! normalizedPath)) then
    if queueIfLocked then
      let entry := {| q_message := message; q_senderPath := ""; q_priority := 0 |} in
      match lockedPathQueues r1 !! normalizedPath with
      | Some qref =>
          Some (set_queues r1 (<[qref := queue_at r1 qref ++ [entry]]> (queues r1)),
                snd st, false)
      | None =>
          let qref := nextRef r1 in
          Some (set_lockedPathQueues
                  (set_nextRef (set_queues r1 (<[qref := [entry]]> (queues r1))) (S qref))
                  (<[normalizedPath := qref]> (lockedPathQueues r1)),
                snd st, false)
      end
    else Some (r1, snd st, false)
  else processMessageImmediate fuel (r1, snd st) message "".

(** [while (this.messageQueue.length > 0)]: every turn reads the queue
    from the router as the callbacks left it. *)
Fixpoint processQueue_loop (fuel : nat) (st : State) : option State :=
  match messageQueue (fst st) with
  | [] => Some st
  | queuedMsg :: rest =>
      match fuel with
      | 0 => None
      | S fuel' =>
          '(st1, _) ← processMessageImmediate fuel'
                        (set_messageQueue (fst st) rest, snd st)
                        (q_message queuedMsg) (q_senderPath queuedMsg);
          processQueue_loop fuel' st1
      end
  end.

Definition processQueue (fuel : nat) (st : State) : option State :=
  processQueue_loop fuel
    (set_messageQueue (fst st) (js_sort byPriority (messageQueue (fst st))), snd st).

(** One public call. *)
Definition exec_op (fuel : nat) (st : State) (op : Op) : option State :=
  let r := fst st in
  let calls := snd st in
  match op with
  | OpAddListener path callback ownerID now =>
      Some (fst (addListener r path callback ownerID now), calls)
  | OpRemoveListener listenerId => Some (fst (removeListener r listenerId), calls)
  | OpRemoveListeners listenerIds => Some (fst (removeListeners r listenerIds), calls)
  | OpRemoveListenersByPath path => Some (fst (removeListenersByPath r path), calls)
  | OpRemoveListenersByOwner ownerID => Some (fst (removeListenersByOwner r ownerID), calls)
  | OpSetListenerActive listenerId active =>
      Some (fst (setListenerActive r listenerId active), calls)
  | OpClearListeners => Some (clearListeners r, calls)
  | OpLockPath path mode ownerID senderID receiverID now =>
      Some (fst (lockPath r path mode ownerID senderID receiverID now), calls)
  | OpUnlockPath path ownerID => fst <$> unlockPath fuel st path ownerID
  | OpFinalizeLock path ownerID => Some (fst (finalizeLock r path ownerID), calls)
  | OpClearLocks => Some (clearLocks r, calls)
  | OpSendMessage path data senderID receiverID queueIfLocked now =>
      fst <$> sendMessage fuel st path data senderID receiverID queueIfLocked now
  | OpQueueMessage path data senderID receiverID priority now =>
      Some (fst (queueMessage r path data senderID receiverID priority now), calls)
  | OpProcessQueue => processQueue fuel st
  | OpClearQueue => Some (clearQueue r, calls)
  end.

End Methods.

(** The calls of a callback, or of the client, one after the other. *)
Fixpoint run_script (exec : State -> Op -> option State) (st : State) (ops : list Op)
  : option State :=
  match ops with
  | [] => Some st
  | op :: rest => st1 ← exec st op; run_script exec st1 rest
  end.

Section Callbacks.

(** The router calls a callback makes, from the invocations so far with
    its own last. *)
Variable behaviour : list Call -> list Op.

(** One callback invocation: it is recorded, then its router calls run,
    each of which may invoke callbacks in turn. *)
Fixpoint invoke (fuel : nat) (st : State) (call : Call) : option State :=
  match fuel with
  | 0 => None
  | S fuel' =>
      let history := snd st ++ [call] in
      run_script (exec_op (invoke fuel') fuel') (fst st, history) (behaviour history)
  end.

(** One public call by the client. *)
Definition exec (fuel : nat) (st : State) (op : Op) : option State :=
  exec_op (invoke fuel) fuel st op.

(** A sequence of public calls on a router, from an empty history. *)
Definition run (fuel : nat) (r : Router) (ops : list Op) : option State :=
  run_script (exec fuel) (r, []) ops.

End Callbacks.

End Live.

(** ** The live router seen as a plain router *)

(** The arrays read out of the heap. *)
Definition live_view (r : Live.Router) : Router :=
  {| listeners := Live.listeners_now r;
     messageQueue := Live.messageQueue r;
     pathLocks := Live.pathLocks r;
     lockedPathQueues := Live.queue_at r <$> Live.lockedPathQueues r;
     nextListenerId := Live.nextListenerId r;
     nextMessageId := Live.nextMessageId r |}.

(** The callbacks of [calls] make no router call, whenever they run. *)
Definition quiet (behaviour : list Call -> list Op) (calls : list Call) : Prop :=
  forall history c, In c calls -> behaviour (history ++ [c]) = [].

(** The callback with handle [h] makes the router calls [ops] every time
    it runs; every other callback makes none. *)
Definition on_handle (h : nat) (ops : list Op) (history : list Call) : list Op :=
  match last history with
  | Some c => if bool_decide (call_callback c = h) then ops else []
  | None => []
  end.

(** What immediate dispatch of [message] invokes on the router [r] when
    the callbacks leave the router alone: nothing if the path is locked,
    else the matching listeners of [this.listeners] along the bubbling
    chain. *)
Definition live_calls (r : Live.Router) (message : Message) : list Call :=
  if bool_decide (is_Some (Live.pathLocks r !! normalizePath (msg_path message)))
  then []
  else dispatch (Live.listeners_now r) message.

(** The router after the client's calls [ops], none of which dispatches. *)
Definition live_setup (ops : list Op) : Live.Router :=
  default Live.new_MessageRouter (fst <$> Live.run (fun _ => []) 0 Live.new_MessageRouter ops).


(** The heap of a live router is well formed: [this.listeners] holds no
    object twice, every reference in use is below the allocator, and no
    two paths share a queue array. *)
Definition live_wf (r : Live.Router) : Prop :=
  NoDup (Live.array_at r (Live.listeners r))
  /\ (forall ref, In ref (Live.array_at r (Live.listeners r)) -> ref < Live.nextRef r)
  /\ (forall k qref, Live.lockedPathQueues r !! k = Some qref -> qref < Live.nextRef r)
  /\ (forall k1 k2 qref, Live.lockedPathQueues r !! k1 = Some qref ->
        Live.lockedPathQueues r !! k2 = Some qref -> k1 = k2).

(** What the inner loop invokes from index [i] on, when the array does
    not change under it. *)
Definition fired_from (r : Live.Router) (arr i : nat) (message : Message)
    (targetPath : string) : list Call :=
  flat_map (deliver message targetPath) (Live.deref r (drop i (Live.array_at r arr))).

Definition fired_paths (r : Live.Router) (message : Message) (targetPaths : list string)
  : list Call :=
  flat_map (fun targetPath => flat_map (deliver message targetPath) (Live.listeners_now r))
           targetPaths.

(** What the replay loop of [unlockPath] invokes from index [i] on. *)
Definition replayed_from (r : Live.Router) (qref i : nat) : list Call :=
  flat_map (fun e => live_calls r (q_message e)) (drop i (Live.queue_at r qref)).

(** Listener 1 on [/x]; [/x] locked for sender S by owner O; two messages
    sent while it is locked. *)
Definition live_unlock_demo : Live.Router :=
  live_setup [OpAddListener "/x" 1 "app" 0%Z;
              OpLockPath "/x" LockMode.STRICT "O" "S" "" 0%Z;
              OpSendMessage "/x" "d1" "S" "" true 1%Z;
              OpSendMessage "/x" "d2" "S" "" true 2%Z].

(** A root listener, and a lock on [/a] only. *)
Definition live_ancestor_demo : Live.Router :=
  live_setup [OpAddListener "/" 1 "app" 0%Z;
              OpLockPath "/a" LockMode.STRICT "P" "S" "" 0%Z].

(** Two listeners on [/x]. *)
Definition live_pair_demo : Live.Router :=
  live_setup [OpAddListener "/x" 1 "a" 0%Z; OpAddListener "/x" 2 "b" 0%Z].

(** ** The state changes a public call is made of *)

(** The router after a public call that invokes no callback. *)
Definition live_plain (r : Live.Router) (op : Op) : option Live.Router :=
  match op with
  | OpUnlockPath _ _ | OpSendMessage _ _ _ _ _ _ | OpProcessQueue => None
  | _ => fst <$> Live.exec_op (fun _ _ => None) 0 (r, []) op
  end.

(** One state change of a call allowed by [Q]: a whole call that invokes
    no callback, or one of the writes that [unlockPath], [sendMessage]
    and [processQueue] make before, between and after the callbacks they
    invoke. *)
Inductive atom (Q : Op -> Prop) : Live.Router -> Live.Router -> Prop :=
| atom_plain r op r' :
    Q op -> live_plain r op = Some r' -> atom Q r r'
| atom_unlock_lock r path ownerID lock :
    Q (OpUnlockPath path ownerID) ->
    Live.pathLocks r !! normalizePath path = Some lock ->
    lock_finalized lock = false ->
    atom Q r (Live.set_pathLocks r (delete (normalizePath path) (Live.pathLocks r)))
| atom_unlock_queue r path ownerID :
    Q (OpUnlockPath path ownerID) ->
    atom Q r (Live.set_lockedPathQueues r
                (delete (normalizePath path) (Live.lockedPathQueues r)))
| atom_send_locked r path data senderID receiverID queueIfLocked now res :
    Q (OpSendMessage path data senderID receiverID queueIfLocked now) ->
    is_Some (Live.pathLocks r !! normalizePath path) ->
    Live.sendMessage (fun _ _ => None) 0 (r, []) path data senderID receiverID
                     queueIfLocked now = Some res ->
    atom Q r (fst (fst res))
| atom_send_unlocked r path data senderID receiverID queueIfLocked now :
    Q (OpSendMessage path data senderID receiverID queueIfLocked now) ->
    atom Q r (Live.set_nextMessageId r (S (Live.nextMessageId r)))
| atom_sort r :
    Q OpProcessQueue ->
    atom Q r (Live.set_messageQueue r (js_sort byPriority (Live.messageQueue r)))
| atom_shift r queuedMsg rest :
    Q OpProcessQueue ->
    Live.messageQueue r = queuedMsg :: rest ->
    atom Q r (Live.set_messageQueue r rest).

(** The lock on [k] exists and is finalized. *)
Definition live_finalized_at (r : Live.Router) (k : string) : Prop :=
  exists lock, Live.pathLocks r !! k = Some lock /\ lock_finalized lock = true.

(** Every entry of a per-path queue is addressed to the path it is filed
    under. *)
Definition live_queues_addressed (r : Live.Router) : Prop :=
  forall k qref, Live.lockedPathQueues r !! k = Some qref ->
    Forall (fun e => msg_path (q_message e) = k) (Live.queue_at r qref).

(** The same state changes on the plain router: a whole public call, or
    one of the writes of [unlockPath], [sendMessage] and [processQueue]. *)
Inductive view_atom (Q : Op -> Prop) : Router -> Router -> Prop :=
| view_step v op :
    Q op -> view_atom Q v (fst (step v op))
| view_unlock_lock v path ownerID lock :
    Q (OpUnlockPath path ownerID) ->
    pathLocks v !! normalizePath path = Some lock ->
    lock_finalized lock = false ->
    view_atom Q v (set_pathLocks v (delete (normalizePath path) (pathLocks v)))
| view_unlock_queue v path ownerID :
    Q (OpUnlockPath path ownerID) ->
    view_atom Q v (set_lockedPathQueues v
                     (delete (normalizePath path) (lockedPathQueues v)))
| view_message_id v :
    view_atom Q v (set_nextMessageId v (S (nextMessageId v)))
| view_sort v :
    view_atom Q v (set_messageQueue v (js_sort byPriority (messageQueue v)))
| view_shift v queuedMsg rest :
    messageQueue v = queuedMsg :: rest ->
    view_atom Q v (set_messageQueue v rest).

(** Any call is allowed. *)
Definition any_op (op : Op) : Prop := True.

(** Any call but [clearLocks]. *)
Definition not_clearLocks (op : Op) : Prop := is_clearLocks op = false.

(** Listener 1 on the root calls [clearQueue] and then queues a message
    of its own whenever it runs. *)
Definition requeue_behaviour : list Call -> list Op :=
  on_handle 1 [OpClearQueue; OpQueueMessage "/q" "again" "" "" 9%Z 0%Z;
               OpSetListenerActive 1 false].

(** Listener 1 tries to unlock and to lock [/x] again whenever it runs. *)
Definition unlocking_behaviour : list Call -> list Op :=
  on_handle 1 [OpUnlockPath "/x" "O"; OpLockPath "/x" LockMode.ANY_SENDER "P" "" "R" 7%Z].

(** A root listener, and [/x] locked and finalized by owner O. *)
Definition live_finalized_demo : Live.Router :=
  live_setup [OpAddListener "/" 1 "app" 0%Z;
              OpLockPath "/x" LockMode.STRICT "O" "S" "" 0%Z;
              OpFinalizeLock "/x" "O"].

(** * Sanity checks on concrete inputs *)

Example normalizePath_ex1 : normalizePath "a" = "/a".
Proof. reflexivity. Qed.
Example normalizePath_ex2 : normalizePath "/a/" = "/a".
Proof. reflexivity. Qed.
Example normalizePath_ex3 : normalizePath "/" = "/".
Proof. reflexivity. Qed.
Example normalizePath_ex4 : normalizePath "" = "/".
Proof. reflexivity. Qed.
Example normalizePath_ex5 : normalizePath "/a//" = "/a/".
Proof. reflexivity. Qed.
Example getBubblingPaths_ex1 : getBubblingPaths "/a/b/c" = ["/a/b/c"; "/a/b"; "/a"; "/"].
Proof. reflexivity. Qed.
Example getBubblingPaths_ex2 : getBubblingPaths "/" = ["/"].
Proof. reflexivity. Qed.
Example getBubblingPaths_ex3 : getBubblingPaths "/a/" = ["/a"; "/"].
Proof. reflexivity. Qed.
Example toString_ex : toString 12 = "12" /\ toString 0 = "0".
Proof. split; reflexivity. Qed.

(** * Path hierarchy *)

Section PathHierarchy.

Lemma endsWith_cons a s c : s <> "" -> endsWith (String a s) c = endsWith s c.
Proof. destruct s; [congruence | reflexivity]. Qed.

Lemma slice_0_m1_length s : String.length (slice_0_m1 s) = String.length s - 1.
Proof.
  induction s as [|a s IH]; [reflexivity|].
  destruct s as [|b s]; [reflexivity|].
  change (slice_0_m1 (String a (String b s))) with (String a (slice_0_m1 (String b s))).
  cbn [String.length] in *. lia.
Qed.

Lemma normalizePath_head p : exists s, normalizePath p = String slash s.
Proof.
  unfold normalizePath.
  match goal with |- context [match ?n with EmptyString => _ | _ => _ end] =>
    destruct n as [|a s] end; [eauto|].
  case_bool_decide; subst; eauto.
Qed.

Lemma normalizePath_length p : 1 <= String.length (normalizePath p).
Proof. destruct (normalizePath_head p) as [s ->]. cbn. lia. Qed.

Lemma normalizePath_slash s :
  normalizePath (String slash s) =
  if trailing (String slash s) then slice_0_m1 (String slash s) else String slash s.
Proof.
  unfold normalizePath, trailing.
  destruct ((1 <? _) && _) eqn:E.
  - destruct s as [|b s]; [discriminate|].
    change (slice_0_m1 (String slash (String b s))) with (String slash (slice_0_m1 (String b s))).
    cbv zeta iota beta. rewrite bool_decide_eq_true_2; reflexivity.
  - cbv zeta iota beta. rewrite bool_decide_eq_true_2; reflexivity.
Qed.

Lemma normalizePath_fixed_iff k :
  normalizePath k = k <-> (exists s, k = String slash s) /\ trailing k = false.
Proof.
  split.
  - intros H. destruct (normalizePath_head k) as [s Hs].
    rewrite H in Hs. subst k. split; [eauto|].
    rewrite normalizePath_slash in H.
    destruct (trailing _) eqn:E; [|reflexivity].
    apply (f_equal String.length) in H. rewrite slice_0_m1_length in H.
    cbn [String.length] in H. lia.
  - intros [[s ->] E]. rewrite normalizePath_slash, E. reflexivity.
Qed.

(** X1.  [normalizePath] is idempotent at [p] exactly when [p] is not a string
    of three or more characters that ends in two slashes. *)
Lemma normalizePath_idempotent_iff p :
  normalizePath (normalizePath p) = normalizePath p <->
  ~ (2 < String.length p /\ endsWith p slash = true /\ endsWith (slice_0_m1 p) slash = true).
Proof.
  rewrite normalizePath_fixed_iff.
  destruct (normalizePath_head p) as [s Hs].
  assert (Ht : trailing (normalizePath p) = true <->
               2 < String.length p /\ endsWith p slash = true /\ endsWith (slice_0_m1 p) slash = true).
  { clear s Hs. unfold normalizePath, trailing.
    destruct ((1 <? String.length p) && endsWith p slash) eqn:E.
    - apply andb_true_iff in E as [E1 E2]. apply Nat.ltb_lt in E1.
      pose proof (slice_0_m1_length p) as HL.
      destruct (slice_0_m1 p) as [|a t] eqn:Es; [cbn in HL; lia|].
      case_bool_decide; subst.
      + rewrite andb_true_iff, Nat.ltb_lt. cbn [String.length] in *.
        split; [intros [? ?]|intros (? & ? & ?)]; repeat split; auto; lia.
      + destruct t as [|b t].
        * cbn. rewrite bool_decide_eq_false_2 by auto. split; [discriminate|].
          intros (? & ? & ?); discriminate.
        * rewrite endsWith_cons by discriminate.
          rewrite andb_true_iff, Nat.ltb_lt. cbn [String.length] in *.
          split; [intros [? ?]|intros (? & ? & ?)]; repeat split; auto; lia.
    - destruct p as [|a p].
      + cbn. split; [discriminate|]. intros (? & ? & ?); discriminate.
      + apply andb_false_iff in E.
        assert (Hn : (1 <? String.length (if bool_decide (a = slash) then String a p else String slash (String a p))) && endsWith (if bool_decide (a = slash) then String a p else String slash (String a p)) slash = true <-> 1 < String.length (String a p) /\ endsWith (String a p) slash = true).
        { case_bool_decide.
          - rewrite andb_true_iff, Nat.ltb_lt. reflexivity.
          - rewrite endsWith_cons by discriminate.
            rewrite andb_true_iff, Nat.ltb_lt. cbn [String.length].
            split; [intros [_ He]|intros [? ?]; split; [lia|assumption]].
            split; [|assumption]. destruct p; [|cbn; lia].
            cbn in He. apply bool_decide_eq_true in He. congruence. }
        rewrite Hn. split.
        * intros [H1 H2]. destruct E as [E|E]; [apply Nat.ltb_ge in E; lia|congruence].
        * intros (H1 & H2 & _). split; [lia|assumption]. }
  split.
  - intros [_ Hf] Hc. apply Ht in Hc. congruence.
  - intros Hn. split; [eauto|]. destruct (trailing _); [|reflexivity].
    exfalso. apply Hn, Ht. reflexivity.
Qed.

Lemma normalizePath_idempotent_iff_witness :
  normalizePath (normalizePath "sensors/temp/") = normalizePath "sensors/temp/".
Proof.
  apply (proj2 (normalizePath_idempotent_iff "sensors/temp/")).
  intros (_ & _ & H). vm_compute in H. discriminate.
Defined.

(** C2, at the input ["/a//"]: [normalizePath] strips one trailing slash
    only, so its result ["/a/"] still ends in a slash and normalizing
    again gives ["/a"]. *)
Theorem normalizePath_double_slash_not_fixed :
  normalizePath "/a//" = "/a/" /\ normalizePath (normalizePath "/a//") = "/a".
Proof. split; reflexivity. Qed.

Lemma substring_0_length n s : String.length (String.substring 0 n s) = Nat.min n (String.length s).
Proof.
  revert s. induction n as [|n IH]; intros [|a s]; cbn; auto.
Qed.

Lemma lastIndexOf_lt c s i : lastIndexOf c s = Some i -> i < String.length s.
Proof.
  revert i. induction s as [|a s IH]; intros i; cbn; [discriminate|].
  destruct (lastIndexOf c s) as [j|].
  - intros [= <-]. specialize (IH j eq_refl). lia.
  - case_bool_decide; [intros [= <-]; lia | discriminate].
Qed.

Lemma getParentPath_shorter cur :
  cur <> "/" ->
  getParentPath cur = "/" \/
  (1 <= String.length (getParentPath cur) < String.length cur).
Proof.
  intros Hne. unfold getParentPath.
  rewrite bool_decide_eq_false_2 by assumption.
  destruct (lastIndexOf slash cur) as [[|i]|] eqn:E; auto.
  right. apply lastIndexOf_lt in E. rewrite substring_0_length. lia.
Qed.

Lemma bubbling_loop_enough fuel : forall cur paths,
  1 <= String.length cur <= fuel ->
  exists l, bubbling_loop fuel cur paths = Some l.
Proof.
  induction fuel as [|fuel IH]; intros cur paths Hlen; [lia|].
  cbn [bubbling_loop]. case_bool_decide as Hroot; [eauto|].
  destruct (getParentPath_shorter cur Hroot) as [Hp|Hp].
  - rewrite Hp. destruct fuel; cbn; eauto.
  - apply IH. lia.
Qed.

Lemma bubbling_loop_more_fuel fuel : forall fuel' cur paths l,
  bubbling_loop fuel cur paths = Some l -> fuel <= fuel' ->
  bubbling_loop fuel' cur paths = Some l.
Proof.
  induction fuel as [|fuel IH]; intros fuel' cur paths l.
  - cbn. case_bool_decide as Hroot; [|discriminate].
    intros [= <-] _. destruct fuel'; cbn; rewrite bool_decide_eq_true_2; auto.
  - cbn [bubbling_loop]. case_bool_decide as Hroot.
    + intros [= <-] _. destruct fuel'; cbn; rewrite bool_decide_eq_true_2; auto.
    + intros H Hle. destruct fuel' as [|fuel']; [lia|].
      cbn [bubbling_loop]. rewrite bool_decide_eq_false_2 by assumption.
      apply IH; [assumption | lia].
Qed.

(** X4.  The loop of [getBubblingPaths] terminates: the length of the
    normalized path is enough fuel, and more fuel changes nothing. *)
Lemma getBubblingPaths_fuel_enough path fuel :
  String.length (normalizePath path) <= fuel ->
  getBubblingPaths_fuel fuel path = Some (getBubblingPaths path).
Proof.
  intros Hle. unfold getBubblingPaths, getBubblingPaths_fuel in *.
  destruct (bubbling_loop_enough (String.length (normalizePath path)) (normalizePath path)
              [normalizePath path]) as [l Hl].
  { pose proof (normalizePath_length path). lia. }
  rewrite Hl. cbn. eapply bubbling_loop_more_fuel; eauto.
Qed.

Lemma getBubblingPaths_fuel_enough_witness :
  getBubblingPaths_fuel 100 "/a/b/c" = Some ["/a/b/c"; "/a/b"; "/a"; "/"].
Proof.
  rewrite (getBubblingPaths_fuel_enough "/a/b/c" 100 ltac:(vm_compute; lia)).
  reflexivity.
Defined.

End PathHierarchy.

(** * Lock admission and immediate dispatch *)

Section Dispatch.

Lemma validateMessageLock_unlocked r message :
  pathLocks r !! normalizePath (msg_path message) = None ->
  validateMessageLock r message = true.
Proof. intros H. unfold validateMessageLock. rewrite H. reflexivity. Qed.

Lemma processMessageImmediate_eq r message senderPath :
  processMessageImmediate r message senderPath =
  if bool_decide (is_Some (pathLocks r !! normalizePath (msg_path message)))
  then ([], false)
  else (dispatch (listeners r) message, true).
Proof.
  unfold processMessageImmediate. cbv zeta.
  case_bool_decide as Hl; [reflexivity|].
  rewrite validateMessageLock_unlocked; [reflexivity|].
  destruct (pathLocks r !! _) eqn:E; [|reflexivity].
  exfalso. apply Hl. eauto.
Qed.

Lemma processMessageImmediate_ext r1 r2 message senderPath :
  pathLocks r1 = pathLocks r2 -> listeners r1 = listeners r2 ->
  processMessageImmediate r1 message senderPath = processMessageImmediate r2 message senderPath.
Proof. intros Hp Hl. rewrite !processMessageImmediate_eq, Hp, Hl. reflexivity. Qed.

Lemma in_dispatch ls message c :
  In c (dispatch ls message) <->
  exists targetPath l, In targetPath (getBubblingPaths (msg_path message))
    /\ In l ls /\ In c (deliver message targetPath l).
Proof.
  unfold dispatch. rewrite in_flat_map. split.
  - intros (tp & Htp & Hc). apply in_flat_map in Hc as (l & Hl & Hc). eauto.
  - intros (tp & l & Htp & Hl & Hc). exists tp. split; [assumption|].
    apply in_flat_map. eauto.
Qed.

(** C1.  [processMessageImmediate] blocks (returns [false], invoking no
    callback) whenever a lock record exists on the message's normalized
    path, whatever the lock's mode and whether or not the message's sender
    and receiver satisfy it; it returns [true] exactly when no lock is
    there, which is exactly when both of its lock checks pass; and the
    result does not depend on the registered listeners. *)
Theorem processMessageImmediate_lock_check (r : Router) (message : Message) (senderPath : string) :
  let normalizedPath := normalizePath (msg_path message) in
  (forall lock, pathLocks r !! normalizedPath = Some lock ->
     processMessageImmediate r message senderPath = ([], false))
  /\ (snd (processMessageImmediate r message senderPath) = true <->
      pathLocks r !! normalizedPath = None)
  /\ (snd (processMessageImmediate r message senderPath) = true <->
      pathLocks r !! normalizedPath = None /\ validateMessageLock r message = true)
  /\ (forall ls, snd (processMessageImmediate (set_listeners r ls) message senderPath)
                 = snd (processMessageImmediate r message senderPath)).
Proof.
  intros k. subst k. rewrite !processMessageImmediate_eq.
  split; [|split; [|split]].
  - intros lock Hl. rewrite bool_decide_eq_true_2; eauto.
  - case_bool_decide as Hl; cbn.
    + destruct Hl as [l Hl]. rewrite Hl. split; discriminate.
    + split; [|reflexivity]. intros _.
      destruct (pathLocks r !! _); [exfalso; eauto | reflexivity].
  - case_bool_decide as Hl; cbn.
    + destruct Hl as [l Hl]. rewrite Hl. split; [discriminate|]. intros [? _]. discriminate.
    + split; [|reflexivity]. intros _.
      assert (pathLocks r !! normalizePath (msg_path message) = None) as Hn.
      { destruct (pathLocks r !! _); [exfalso; eauto | reflexivity]. }
      split; [assumption|]. apply validateMessageLock_unlocked. assumption.
  - intros ls. rewrite processMessageImmediate_eq. cbn.
    case_bool_decide; reflexivity.
Qed.

(** A message that satisfies the STRICT lock on its path is blocked all
    the same. *)
Lemma processMessageImmediate_lock_check_witness :
  validateMessageLock locked_demo matching_message = true
  /\ processMessageImmediate locked_demo matching_message "" = ([], false).
Proof.
  split; [vm_compute; reflexivity|].
  refine (proj1 (processMessageImmediate_lock_check locked_demo matching_message "")
            {| lock_path := "/x"; lock_mode := LockMode.STRICT; lock_senderID := "S";
               lock_senderOwner := "O"; lock_receiverID := "R"; lock_receiverOwner := "O";
               lock_finalized := false; lock_timestamp := 0%Z |} _).
  vm_compute. reflexivity.
Defined.

(** C4.  [validateMessageLock] admits every message whose normalized path
    has no lock.  With a lock: under STRICT or EXCLUSIVE it rejects exactly
    when the lock has a non-empty senderID differing from the message's or
    a non-empty receiverID differing from the message's; under ANY_SENDER
    exactly on such a receiver mismatch; under ANY_RECEIVER exactly on such
    a sender mismatch. *)
Theorem validateMessageLock_admission (r : Router) (message : Message) :
  let normalizedPath := normalizePath (msg_path message) in
  (pathLocks r !! normalizedPath = None -> validateMessageLock r message = true)
  /\ forall lock, pathLocks r !! normalizedPath = Some lock ->
     let senderMismatch :=
       lock_senderID lock <> "" /\ lock_senderID lock <> msg_senderID message in
     let receiverMismatch :=
       lock_receiverID lock <> "" /\ lock_receiverID lock <> msg_receiverID message in
     (lock_mode lock = LockMode.STRICT \/ lock_mode lock = LockMode.EXCLUSIVE ->
        (validateMessageLock r message = false <-> senderMismatch \/ receiverMismatch))
     /\ (lock_mode lock = LockMode.ANY_SENDER ->
        (validateMessageLock r message = false <-> receiverMismatch))
     /\ (lock_mode lock = LockMode.ANY_RECEIVER ->
        (validateMessageLock r message = false <-> senderMismatch)).
Proof.
  intros k. split; [apply validateMessageLock_unlocked|].
  intros lock Hl sm rm. subst sm rm k.
  unfold validateMessageLock. rewrite Hl. unfold truthy.
  split; [|split].
  - intros [Hm|Hm]; rewrite Hm; cbn [bool_decide];
      repeat (case_bool_decide; cbn); try discriminate; intuition congruence.
  - intros Hm; rewrite Hm;
      repeat (case_bool_decide; cbn); try discriminate; intuition congruence.
  - intros Hm; rewrite Hm;
      repeat (case_bool_decide; cbn); try discriminate; intuition congruence.
Qed.

End Dispatch.

(** * The sort of the global queue *)

Section Sort.
Context {A : Type} (compareFn : A -> A -> Z).

Lemma length_sort_insert x l :
  length (sort_insert compareFn x l) = S (length l).
Proof. induction l as [|y l IH]; cbn; [reflexivity|]. destruct (_ <=? _)%Z; cbn; lia. Qed.

Lemma length_js_sort l : length (js_sort compareFn l) = length l.
Proof.
  induction l as [|x l IH]; cbn; [reflexivity|].
  rewrite length_sort_insert. unfold js_sort in IH. lia.
Qed.



End Sort.

Section SortByPriority.





End SortByPriority.

(** * processQueue *)

Section ProcessQueue.

Lemma processQueue_loop_spec fuel : forall r calls,
  length (messageQueue r) <= fuel ->
  processQueue_loop fuel r calls =
  Some (set_messageQueue r [], calls ++ replay r (messageQueue r)).
Proof.
  induction fuel as [|fuel IH]; intros r calls Hlen.
  - destruct r as [ls q pl lq nl nm]. cbn in *. destruct q; [|cbn in Hlen; lia].
    cbn. rewrite app_nil_r. reflexivity.
  - destruct r as [ls q pl lq nl nm]. cbn in *. destruct q as [|x q].
    + cbn. rewrite app_nil_r. reflexivity.
    + cbn in Hlen. unfold replay. cbn [flat_map].
      rewrite (processMessageImmediate_ext _
                 {| listeners := ls; messageQueue := x :: q; pathLocks := pl;
                    lockedPathQueues := lq; nextListenerId := nl; nextMessageId := nm |})
        by reflexivity.
      destruct (processMessageImmediate _ (q_message x) (q_senderPath x)) as [cs b] eqn:E.
      rewrite IH by (cbn; lia). cbn. rewrite <- app_assoc. reflexivity.
Qed.

Lemma processQueue_fuel_enough r fuel :
  length (messageQueue r) <= fuel ->
  processQueue_fuel fuel r =
  Some (set_messageQueue r [], replay r (js_sort byPriority (messageQueue r))).
Proof.
  intros Hlen. unfold processQueue_fuel.
  rewrite processQueue_loop_spec by (cbn; rewrite length_js_sort; lia).
  reflexivity.
Qed.

Lemma processQueue_eq r :
  processQueue r = (set_messageQueue r [], replay r (js_sort byPriority (messageQueue r))).
Proof. unfold processQueue. rewrite processQueue_fuel_enough by lia. reflexivity. Qed.

End ProcessQueue.

(** * Frame lemmas: what each operation leaves alone *)

Lemma removeListener_pathLocks r id : pathLocks (fst (removeListener r id)) = pathLocks r.
Proof. unfold removeListener. destruct (remove_first_id _ _); reflexivity. Qed.

Lemma removeListeners_loop_pathLocks ids : forall r n,
  pathLocks (fst (removeListeners_loop r ids n)) = pathLocks r.
Proof.
  induction ids as [|id ids IH]; intros r n; cbn; [reflexivity|].
  pose proof (removeListener_pathLocks r id) as H.
  destruct (removeListener r id) as [r' b]. rewrite IH. exact H.
Qed.

Lemma setListenerActive_pathLocks r id a :
  pathLocks (fst (setListenerActive r id a)) = pathLocks r.
Proof. unfold setListenerActive. destruct (activate_first_id _ _ _); reflexivity. Qed.

Lemma sendMessage_pathLocks r path data s rc q now :
  pathLocks (fst (fst (sendMessage r path data s rc q now))) = pathLocks r.
Proof.
  unfold sendMessage. cbv zeta. case_bool_decide; [destruct q; reflexivity|].
  destruct (processMessageImmediate _ _ _); reflexivity.
Qed.

Lemma queueMessage_pathLocks r path data s rc p now :
  pathLocks (fst (queueMessage r path data s rc p now)) = pathLocks r.
Proof. unfold queueMessage. cbv zeta. destruct (_ <=? _); reflexivity. Qed.

Lemma removeListener_messageQueue r id : messageQueue (fst (removeListener r id)) = messageQueue r.
Proof. unfold removeListener. destruct (remove_first_id _ _); reflexivity. Qed.

Lemma removeListeners_loop_messageQueue ids : forall r n,
  messageQueue (fst (removeListeners_loop r ids n)) = messageQueue r.
Proof.
  induction ids as [|id ids IH]; intros r n; cbn; [reflexivity|].
  pose proof (removeListener_messageQueue r id) as H.
  destruct (removeListener r id) as [r' b]. rewrite IH. exact H.
Qed.

Lemma setListenerActive_messageQueue r id a :
  messageQueue (fst (setListenerActive r id a)) = messageQueue r.
Proof. unfold setListenerActive. destruct (activate_first_id _ _ _); reflexivity. Qed.

Lemma lockPath_messageQueue r path mode o s rc now :
  messageQueue (fst (lockPath r path mode o s rc now)) = messageQueue r.
Proof.
  unfold lockPath. cbv zeta.
  destruct (match pathLocks r !! normalizePath path with
            | Some e => lock_finalized e | None => false end); [reflexivity|].
  cbn [fst]. destruct (lockedPathQueues _ !! _); reflexivity.
Qed.

Lemma unlockPath_messageQueue r path o :
  messageQueue (fst (fst (unlockPath r path o))) = messageQueue r.
Proof.
  unfold unlockPath. cbv zeta.
  destruct (pathLocks r !! normalizePath path) as [l|]; [|reflexivity].
  destruct (lock_finalized l); [reflexivity|].
  destruct (_ && _); reflexivity.
Qed.

Lemma finalizeLock_messageQueue r path o :
  messageQueue (fst (finalizeLock r path o)) = messageQueue r.
Proof.
  unfold finalizeLock.
  destruct (pathLocks r !! normalizePath path) as [l|]; [|reflexivity].
  destruct (_ && _); reflexivity.
Qed.

Lemma sendMessage_messageQueue r path data s rc q now :
  messageQueue (fst (fst (sendMessage r path data s rc q now))) = messageQueue r.
Proof.
  unfold sendMessage. cbv zeta. case_bool_decide; [destruct q; reflexivity|].
  destruct (processMessageImmediate _ _ _); reflexivity.
Qed.

Lemma removeListener_lockedPathQueues r id :
  lockedPathQueues (fst (removeListener r id)) = lockedPathQueues r.
Proof. unfold removeListener. destruct (remove_first_id _ _); reflexivity. Qed.

Lemma removeListeners_loop_lockedPathQueues ids : forall r n,
  lockedPathQueues (fst (removeListeners_loop r ids n)) = lockedPathQueues r.
Proof.
  induction ids as [|id ids IH]; intros r n; cbn; [reflexivity|].
  pose proof (removeListener_lockedPathQueues r id) as H.
  destruct (removeListener r id) as [r' b]. rewrite IH. exact H.
Qed.

Lemma setListenerActive_lockedPathQueues r id a :
  lockedPathQueues (fst (setListenerActive r id a)) = lockedPathQueues r.
Proof. unfold setListenerActive. destruct (activate_first_id _ _ _); reflexivity. Qed.

Create Rewrite HintDb router_frame.

#[local] Hint Rewrite
  removeListener_pathLocks removeListeners_loop_pathLocks setListenerActive_pathLocks
  sendMessage_pathLocks queueMessage_pathLocks
  removeListener_messageQueue removeListeners_loop_messageQueue
  setListenerActive_messageQueue lockPath_messageQueue unlockPath_messageQueue
  finalizeLock_messageQueue sendMessage_messageQueue
  removeListener_lockedPathQueues removeListeners_loop_lockedPathQueues
  setListenerActive_lockedPathQueues : router_frame.

(** Closes a goal that states of the router after an operation what the
    hypothesis [H] states of the router before it, when the operation
    leaves the fields involved alone. *)
Ltac by_frame H :=
  unfold finalized_at, queues_addressed, locks_have_queues, removeListeners;
  autorewrite with router_frame; exact H.

(** * Invariants of the state machine *)

Section Invariants.

Lemma run_invariant (P : Router -> Prop) :
  (forall r op, P r -> P (fst (step r op))) ->
  forall ops r, P r -> P (fst (run r ops)).
Proof.
  intros Hstep ops. induction ops as [|op ops IH]; intros r Hr; [exact Hr|].
  cbn [run]. specialize (Hstep r op Hr). destruct (step r op) as [r1 c1].
  specialize (IH r1 Hstep). destruct (run r1 ops) as [r2 c2]. exact IH.
Qed.

Lemma reachable_invariant (P : Router -> Prop) :
  P new_MessageRouter ->
  (forall r op, P r -> P (fst (step r op))) ->
  forall r, reachable r -> P r.
Proof. intros H0 Hstep r [ops <-]. apply run_invariant; assumption. Qed.

End Invariants.

(** * Lock table *)

Section LockTable.

(** C5.  [unlockPath] returns [false] exactly when the normalized path has
    no lock, or its lock is finalized, or [ownerID] is neither the lock's
    senderOwner nor its receiverOwner; and a failing call leaves the whole
    router, so the lock record and the path's queue, unchanged. *)
Theorem unlockPath_failure_atomic (r : Router) (path ownerID : string) :
  let normalizedPath := normalizePath path in
  (snd (unlockPath r path ownerID) = false <->
     pathLocks r !! normalizedPath = None
     \/ exists lock, pathLocks r !! normalizedPath = Some lock
          /\ (lock_finalized lock = true
              \/ (lock_senderOwner lock <> ownerID /\ lock_receiverOwner lock <> ownerID)))
  /\ (snd (unlockPath r path ownerID) = false -> unlockPath r path ownerID = (r, [], false)).
Proof.
  intros k. subst k. unfold unlockPath. cbv zeta.
  destruct (pathLocks r !! normalizePath path) as [lock|] eqn:Hl.
  - destruct (lock_finalized lock) eqn:Hf.
    + split; [|reflexivity]. cbn. split; [|reflexivity]. intros _. right. eauto.
    + repeat case_bool_decide; cbn; (split; [|try reflexivity; try discriminate]);
        (split; [try discriminate|try reflexivity]).
      * intros [?|(l & [= <-] & [?|[? ?]])]; congruence.
      * intros [?|(l & [= <-] & [?|[? ?]])]; congruence.
      * intros [?|(l & [= <-] & [?|[? ?]])]; congruence.
      * intros _. right. exists lock. split; [reflexivity|]. right. split; assumption.
  - cbn. split; [|reflexivity]. split; [|reflexivity]. intros _. left. reflexivity.
Qed.

(** A stranger cannot unlock [/x]. *)
Lemma unlockPath_failure_atomic_witness :
  snd (unlockPath (fst (lockPath new_MessageRouter "/x" LockMode.STRICT "O" "S" "R" 0%Z))
                  "/x" "intruder") = false
  /\ unlockPath (fst (lockPath new_MessageRouter "/x" LockMode.STRICT "O" "S" "R" 0%Z))
                "/x" "intruder"
     = (fst (lockPath new_MessageRouter "/x" LockMode.STRICT "O" "S" "R" 0%Z), [], false).
Proof.
  split; [vm_compute; reflexivity|].
  apply (proj2 (unlockPath_failure_atomic
                  (fst (lockPath new_MessageRouter "/x" LockMode.STRICT "O" "S" "R" 0%Z))
                  "/x" "intruder")).
  vm_compute; reflexivity.
Defined.

(** C9.  A lock created with empty senderID and receiverID has
    senderOwner = receiverOwner = "": [unlockPath] and [finalizeLock]
    return [false] for every non-empty ownerID, the creator's included,
    and pass the ownership check for the empty ownerID. *)
Theorem unrestricted_lock_has_no_owner (r : Router) (path mode ownerID : string) (now : Z) :
  snd (lockPath r path mode ownerID "" "" now) = true ->
  let r' := fst (lockPath r path mode ownerID "" "" now) in
  (exists lock, pathLocks r' !! normalizePath path = Some lock
     /\ lock_senderOwner lock = "" /\ lock_receiverOwner lock = ""
     /\ lock_finalized lock = false)
  /\ (forall o, o <> "" ->
        snd (unlockPath r' path o) = false /\ snd (finalizeLock r' path o) = false)
  /\ snd (unlockPath r' path "") = true
  /\ snd (finalizeLock r' path "") = true.
Proof.
  unfold lockPath. cbv zeta.
  destruct (match pathLocks r !! normalizePath path with
            | Some existing => lock_finalized existing | None => false end);
    [discriminate|].
  intros _. cbn [fst snd]. change (truthy "") with false. cbv iota.
  set (lock := {| lock_path := normalizePath path; lock_mode := mode |}).
  match goal with |- context [pathLocks ?r0 !! _] => set (r' := r0) end.
  assert (Hl : pathLocks r' !! normalizePath path = Some lock).
  { subst r'. destruct (lockedPathQueues _ !! _); cbn; apply lookup_insert_eq. }
  clearbody r'.
  split; [|split; [|split]].
  - exists lock. auto.
  - intros o Ho. unfold unlockPath, finalizeLock. cbv zeta. rewrite Hl. cbn.
    repeat case_bool_decide; try congruence. cbn. auto.
  - unfold unlockPath. cbv zeta. rewrite Hl. reflexivity.
  - unfold finalizeLock. rewrite Hl. reflexivity.
Qed.

(** Owner O locks [/x] without restrictions and cannot unlock it; the
    empty owner can. *)
Lemma unrestricted_lock_has_no_owner_witness :
  snd (unlockPath (fst (lockPath new_MessageRouter "/x" LockMode.STRICT "O" "" "" 0%Z))
                  "/x" "O") = false
  /\ snd (unlockPath (fst (lockPath new_MessageRouter "/x" LockMode.STRICT "O" "" "" 0%Z))
                     "/x" "") = true.
Proof.
  pose proof (unrestricted_lock_has_no_owner new_MessageRouter "/x" LockMode.STRICT "O" 0%Z
                ltac:(vm_compute; reflexivity)) as H.
  cbv zeta in H. destruct H as (_ & Hno & Hyes & _).
  split; [apply (Hno "O"); discriminate | exact Hyes].
Defined.

Lemma lockPath_finalized r path mode o s rc now :
  finalized_at r (normalizePath path) ->
  lockPath r path mode o s rc now = (r, false).
Proof.
  intros (lock & Hl & Hf). unfold lockPath. cbv zeta. rewrite Hl, Hf. reflexivity.
Qed.

Lemma unlockPath_finalized r path o :
  finalized_at r (normalizePath path) ->
  unlockPath r path o = (r, [], false).
Proof.
  intros (lock & Hl & Hf). unfold unlockPath. cbv zeta. rewrite Hl, Hf. reflexivity.
Qed.

Lemma step_keeps_finalized r op k :
  finalized_at r k -> is_clearLocks op = false -> finalized_at (fst (step r op)) k.
Proof.
  intros Hfin Hop. destruct op; cbn [step fst]; try discriminate;
    try exact Hfin; try by_frame Hfin.
  - destruct (decide (normalizePath path = k)) as [<-|Hne].
    + rewrite lockPath_finalized by assumption. exact Hfin.
    + destruct Hfin as (lock & Hl & Hf). exists lock. split; [|assumption].
      unfold lockPath. cbv zeta.
      destruct (match pathLocks r !! normalizePath path with
                | Some e => lock_finalized e | None => false end); [assumption|].
      cbn [fst]. destruct (lockedPathQueues _ !! _); cbn;
        rewrite lookup_insert_ne by assumption; assumption.
  - destruct (decide (normalizePath path = k)) as [<-|Hne].
    + rewrite unlockPath_finalized by assumption. exact Hfin.
    + destruct Hfin as (lock & Hl & Hf). exists lock. split; [|assumption].
      unfold unlockPath. cbv zeta.
      destruct (pathLocks r !! normalizePath path) as [l|]; [|assumption].
      destruct (lock_finalized l); [assumption|].
      destruct (_ && _); [assumption|].
      cbn. rewrite lookup_delete_ne by assumption. assumption.
  - destruct Hfin as (lock & Hl & Hf). unfold finalizeLock.
    destruct (pathLocks r !! normalizePath path) as [l|] eqn:El; [|exists lock; auto].
    destruct (_ && _); [exists lock; auto|]. unfold finalized_at. cbn [fst set_pathLocks pathLocks].
    destruct (decide (normalizePath path = k)) as [<-|Hne].
    + exists (set_finalized true l). rewrite lookup_insert_eq. auto.
    + exists lock. rewrite lookup_insert_ne by assumption. auto.
  - rewrite processQueue_eq. exact Hfin.
Qed.

Lemma run_keeps_finalized ops : forall r k,
  finalized_at r k ->
  Forall (fun op => is_clearLocks op = false) ops ->
  finalized_at (fst (run r ops)) k.
Proof.
  induction ops as [|op ops IH]; intros r k Hfin Hall; [exact Hfin|].
  inversion Hall as [|? ? Hop Hrest]; subst.
  cbn [run]. pose proof (step_keeps_finalized r op k Hfin Hop) as H1.
  destruct (step r op) as [r1 c1]. specialize (IH r1 k H1 Hrest).
  destruct (run r1 ops) as [r2 c2]. exact IH.
Qed.

(** C6.  Once [finalizeLock] has succeeded on a path, after every sequence
    of public calls that does not contain [clearLocks] the lock is still
    there and finalized, and every [lockPath] and [unlockPath] call on that
    path returns [false] and changes nothing. *)
Theorem finalized_lock_is_terminal (r : Router) (path ownerID : string) (ops : list Op) :
  snd (finalizeLock r path ownerID) = true ->
  Forall (fun op => is_clearLocks op = false) ops ->
  let r' := fst (run (fst (finalizeLock r path ownerID)) ops) in
  finalized_at r' (normalizePath path)
  /\ forall path', normalizePath path' = normalizePath path ->
       (forall mode o s rc now, lockPath r' path' mode o s rc now = (r', false))
       /\ (forall o, unlockPath r' path' o = (r', [], false)).
Proof.
  intros Hfin Hops r'.
  assert (H0 : finalized_at (fst (finalizeLock r path ownerID)) (normalizePath path)).
  { revert Hfin. unfold finalizeLock.
    destruct (pathLocks r !! normalizePath path) as [l|]; [|discriminate].
    destruct (_ && _); [discriminate|]. intros _.
    exists (set_finalized true l). cbn [fst set_pathLocks pathLocks].
    rewrite lookup_insert_eq. auto. }
  assert (H1 : finalized_at r' (normalizePath path))
    by (apply run_keeps_finalized; assumption).
  split; [assumption|]. intros path' Hp. rewrite <- Hp in H1. split.
  - intros. apply lockPath_finalized. assumption.
  - intros. apply unlockPath_finalized. assumption.
Qed.

(** [/x] finalized by its owner, then unlock, re-lock, send and
    processQueue: a further [lockPath] is still refused. *)
Lemma finalized_lock_is_terminal_witness :
  lockPath (fst (run (fst (finalizeLock locked_demo "/x" "O"))
                     [OpUnlockPath "/x" "O"; OpLockPath "x/" LockMode.ANY_SENDER "P" "" "" 1%Z;
                      OpSendMessage "/x" "d" "S" "R" true 2%Z; OpProcessQueue]))
           "/x" LockMode.EXCLUSIVE "O" "S" "R" 3%Z
  = (fst (run (fst (finalizeLock locked_demo "/x" "O"))
                     [OpUnlockPath "/x" "O"; OpLockPath "x/" LockMode.ANY_SENDER "P" "" "" 1%Z;
                      OpSendMessage "/x" "d" "S" "R" true 2%Z; OpProcessQueue]), false).
Proof.
  refine (proj1 (proj2 (finalized_lock_is_terminal locked_demo "/x" "O"
            [OpUnlockPath "/x" "O"; OpLockPath "x/" LockMode.ANY_SENDER "P" "" "" 1%Z;
             OpSendMessage "/x" "d" "S" "R" true 2%Z; OpProcessQueue] _ _) "/x" eq_refl)
          LockMode.EXCLUSIVE "O" "S" "R" 3%Z).
  - vm_compute. reflexivity.
  - repeat constructor.
Defined.

Lemma sendMessage_lockedPathQueues_dom r path data s rc q now k :
  locks_have_queues r ->
  is_Some (lockedPathQueues (fst (fst (sendMessage r path data s rc q now))) !! k)
  <-> is_Some (lockedPathQueues r !! k).
Proof.
  intros H. unfold sendMessage. cbv zeta. case_bool_decide as Hl.
  - destruct q; [|reflexivity].
    cbn [fst set_lockedPathQueues set_nextMessageId lockedPathQueues].
    destruct (decide (normalizePath path = k)) as [<-|Hne].
    + rewrite lookup_insert_eq. split; [intros _|eauto]. apply H. exact Hl.
    + rewrite lookup_insert_ne by assumption. reflexivity.
  - destruct (processMessageImmediate _ _ _). reflexivity.
Qed.

Lemma step_locks_have_queues r op :
  locks_have_queues r -> locks_have_queues (fst (step r op)).
Proof.
  intros H. destruct op; cbn [step fst]; try exact H; try by_frame H.
  - unfold lockPath. cbv zeta.
    destruct (match pathLocks r !! normalizePath path with
              | Some e => lock_finalized e | None => false end); [exact H|].
    cbn [fst set_pathLocks lockedPathQueues].
    intros k. specialize (H k).
    destruct (lockedPathQueues r !! normalizePath path) eqn:E;
      cbn [set_lockedPathQueues set_pathLocks lockedPathQueues pathLocks];
      (destruct (decide (normalizePath path = k)) as [<-|Hne];
       [rewrite ?lookup_insert_eq, ?E; split; eauto
       |rewrite ?lookup_insert_ne by assumption; exact H]).
  - unfold unlockPath. cbv zeta.
    destruct (pathLocks r !! normalizePath path) as [l|]; [|exact H].
    destruct (lock_finalized l); [exact H|].
    destruct (_ && _); [exact H|].
    intros k. cbn [fst set_lockedPathQueues set_pathLocks lockedPathQueues pathLocks].
    destruct (decide (normalizePath path = k)) as [<-|Hne].
    + rewrite !lookup_delete_eq. split; intros [? ?]; discriminate.
    + rewrite !lookup_delete_ne by assumption. apply H.
  - unfold finalizeLock.
    destruct (pathLocks r !! normalizePath path) as [l|] eqn:E; [|exact H].
    destruct (_ && _); [exact H|].
    intros k. cbn [fst set_pathLocks lockedPathQueues pathLocks]. specialize (H k).
    destruct (decide (normalizePath path = k)) as [<-|Hne].
    + rewrite lookup_insert_eq. rewrite E in H. split; [intros _; apply H; eauto|eauto].
    + rewrite lookup_insert_ne by assumption. exact H.
  - intros k. cbn. rewrite !lookup_empty. split; intros [? ?]; discriminate.
  - intros k. rewrite sendMessage_lockedPathQueues_dom by assumption.
    rewrite sendMessage_pathLocks. apply H.
  - unfold queueMessage. cbv zeta. destruct (_ <=? _); exact H.
  - rewrite processQueue_eq. exact H.
Qed.

End LockTable.

(** * The bounded global queue *)

Section GlobalQueue.

Lemma queueMessage_messageQueue r path data s rc p now :
  messageQueue (fst (queueMessage r path data s rc p now)) =
  (if MAX_QUEUE_SIZE <=? length (messageQueue r)
   then tail (messageQueue r) else messageQueue r)
  ++ [ {| q_message := {| msg_path := normalizePath path; msg_data := data;
                          msg_senderID := s; msg_receiverID := rc;
                          msg_timestamp := now; msg_messageId := nextMessageId r |};
          q_senderPath := ""; q_priority := p |} ].
Proof. unfold queueMessage. cbv zeta. destruct (_ <=? _); reflexivity. Qed.


Lemma queueMessage_bound r path data s rc p now :
  length (messageQueue r) <= MAX_QUEUE_SIZE ->
  length (messageQueue (fst (queueMessage r path data s rc p now))) <= MAX_QUEUE_SIZE.
Proof.
  intros H. rewrite queueMessage_messageQueue, length_app. cbn [length].
  destruct (MAX_QUEUE_SIZE <=? length (messageQueue r)) eqn:E.
  - apply Nat.leb_le in E. destruct (messageQueue r); cbn [length tail] in *; unfold MAX_QUEUE_SIZE in *; lia.
  - apply Nat.leb_gt in E. lia.
Qed.

Lemma step_queue_bound r op :
  length (messageQueue r) <= MAX_QUEUE_SIZE ->
  length (messageQueue (fst (step r op))) <= MAX_QUEUE_SIZE.
Proof.
  intros H. destruct op; cbn [step fst]; try exact H; try by_frame H.
  - apply queueMessage_bound. exact H.
  - rewrite processQueue_eq. cbn. lia.
  - cbn. lia.
Qed.





End GlobalQueue.

(** * Replay on unlock and sends below locked ancestors *)

Section Replay.

Lemma step_queues_addressed r op :
  queues_addressed r -> queues_addressed (fst (step r op)).
Proof.
  intros H. destruct op; cbn [step fst]; try exact H; try by_frame H.
  - unfold lockPath. cbv zeta.
    destruct (match pathLocks r !! normalizePath path with
              | Some e => lock_finalized e | None => false end); [exact H|].
    cbn [fst set_pathLocks lockedPathQueues].
    destruct (lockedPathQueues r !! normalizePath path) eqn:E; [exact H|].
    intros k queue. cbn [set_lockedPathQueues lockedPathQueues].
    destruct (decide (normalizePath path = k)) as [<-|Hne].
    + rewrite lookup_insert_eq. intros [= <-]. constructor.
    + rewrite lookup_insert_ne by assumption. apply H.
  - unfold unlockPath. cbv zeta.
    destruct (pathLocks r !! normalizePath path) as [l|]; [|exact H].
    destruct (lock_finalized l); [exact H|].
    destruct (_ && _); [exact H|].
    intros k queue. cbn [fst set_lockedPathQueues set_pathLocks lockedPathQueues].
    destruct (decide (normalizePath path = k)) as [<-|Hne].
    + rewrite lookup_delete_eq. discriminate.
    + rewrite lookup_delete_ne by assumption. apply H.
  - unfold finalizeLock.
    destruct (pathLocks r !! normalizePath path) as [l|]; [|exact H].
    destruct (_ && _); exact H.
  - intros k queue. cbn. rewrite lookup_empty. discriminate.
  - unfold sendMessage. cbv zeta. case_bool_decide.
    + destruct queueIfLocked; [|exact H].
      intros k queue. cbn [fst set_lockedPathQueues set_nextMessageId lockedPathQueues].
      destruct (decide (normalizePath path = k)) as [<-|Hne].
      * rewrite lookup_insert_eq. intros [= <-]. apply Forall_app. split.
        -- destruct (lockedPathQueues r !! normalizePath path) eqn:E; cbn;
             [apply (H _ _ E) | constructor].
        -- repeat constructor.
      * rewrite lookup_insert_ne by assumption. apply H.
    + destruct (processMessageImmediate _ _ _). exact H.
  - unfold queueMessage. cbv zeta. destruct (_ <=? _); exact H.
  - rewrite processQueue_eq. exact H.
Qed.

Lemma reachable_queues_addressed r : reachable r -> queues_addressed r.
Proof.
  apply reachable_invariant.
  - intros k queue. cbn. rewrite lookup_empty. discriminate.
  - apply step_queues_addressed.
Qed.

Lemma replay_unlocked r k queue :
  normalizePath k = k -> pathLocks r !! k = None ->
  Forall (fun e => msg_path (q_message e) = k) queue ->
  replay r queue = flat_map (fun e => dispatch (listeners r) (q_message e)) queue.
Proof.
  intros Hk Hl Hq. unfold replay. induction Hq as [|e queue He _ IH]; [reflexivity|].
  cbn [flat_map]. rewrite IH. f_equal.
  rewrite processMessageImmediate_eq, He, Hk, Hl.
  rewrite bool_decide_eq_false_2; [reflexivity|]. intros [? ?]; discriminate.
Qed.

(** C3, on a router built by public calls: a message queued under the key
    ["/a/"] is replayed by [unlockPath "/a//"] after that lock is removed,
    but immediate dispatch normalizes ["/a/"] to ["/a"], finds the lock on
    [/a], and blocks it: no callback is invoked and the queue entry is
    deleted. *)
Theorem unlockPath_double_slash_loses_message :
  reachable double_slash_demo
  /\ normalizePath "/a//" = "/a/"
  /\ map (fun e => msg_data (q_message e))
         (default [] (lockedPathQueues double_slash_demo !! "/a/")) = ["d"]
  /\ snd (unlockPath double_slash_demo "/a//" "O") = true
  /\ snd (fst (unlockPath double_slash_demo "/a//" "O")) = []
  /\ pathLocks (fst (fst (unlockPath double_slash_demo "/a//" "O"))) !! "/a/" = None
  /\ lockedPathQueues (fst (fst (unlockPath double_slash_demo "/a//" "O"))) !! "/a/" = None.
Proof.
  split; [eexists; reflexivity|].
  repeat split; vm_compute; reflexivity.
Qed.

(** C10, at the path ["/a//"]: its normalized path ["/a/"] is unlocked and
    its parent [/a] is locked; [sendMessage] passes its own lock check,
    and immediate dispatch then blocks the message on the parent's lock:
    nothing is delivered and nothing is queued. *)
Theorem sendMessage_double_slash_blocked_by_parent :
  pathLocks ancestor_demo !! normalizePath "/a//" = None
  /\ getParentPath (normalizePath "/a//") = "/a"
  /\ is_Some (pathLocks ancestor_demo !! "/a")
  /\ sendMessage ancestor_demo "/a//" "d" "S" "" true 0%Z
     = (set_nextMessageId ancestor_demo 2, [], false).
Proof.
  split; [vm_compute; reflexivity|]. split; [vm_compute; reflexivity|].
  split; [vm_compute; eauto|]. vm_compute. reflexivity.
Qed.

End Replay.

(** * The bubbling chain *)

Lemma substring_0_rooted n s : rooted s -> 1 <= n -> rooted (String.substring 0 n s).
Proof. intros [rest ->] Hn. destruct n; [lia|]. cbn. eexists; reflexivity. Qed.

Lemma rooted_not_root_length s : rooted s -> s <> "/" -> 2 <= String.length s.
Proof. intros [[|b rest] ->] Hne; [exfalso; apply Hne; reflexivity | cbn; lia]. Qed.

Lemma getParentPath_rooted cur :
  rooted cur -> cur <> "/" ->
  rooted (getParentPath cur)
  /\ String.length (getParentPath cur) < String.length cur.
Proof.
  intros Hr Hne. pose proof (rooted_not_root_length cur Hr Hne) as Hlen.
  unfold getParentPath. rewrite bool_decide_eq_false_2 by assumption.
  destruct (lastIndexOf slash cur) as [[|i]|] eqn:E.
  - split; [eexists; reflexivity | cbn; lia].
  - apply lastIndexOf_lt in E. split.
    + apply substring_0_rooted; [assumption | lia].
    + rewrite substring_0_length. lia.
  - split; [eexists; reflexivity | cbn; lia].
Qed.

Lemma parent_chain_snoc paths cur parent :
  parent_chain paths -> last paths = Some cur ->
  parent = getParentPath cur -> String.length parent < String.length cur ->
  parent_chain (paths ++ [parent]).
Proof.
  intros Hc Hl -> Hlen. induction paths as [|a paths IH]; [discriminate|].
  destruct paths as [|b paths].
  - cbn in Hl. injection Hl as ->. cbn. auto.
  - cbn [parent_chain app] in *. destruct Hc as [Hab Hc]. split; [exact Hab|].
    apply IH; [exact Hc|]. rewrite last_cons_cons in Hl. exact Hl.
Qed.

Lemma bubbling_loop_chain fuel : forall cur paths l,
  rooted cur -> parent_chain paths -> last paths = Some cur ->
  bubbling_loop fuel cur paths = Some l ->
  parent_chain l /\ last l = Some "/" /\ head l = head paths.
Proof.
  induction fuel as [|fuel IH]; intros cur paths l Hr Hc Hl; cbn [bubbling_loop].
  - case_bool_decide as Hroot; [|discriminate]. intros [= <-]. subst cur. auto.
  - case_bool_decide as Hroot; [intros [= <-]; subst cur; auto|].
    destruct (getParentPath_rooted cur Hr Hroot) as [Hpr Hlen].
    rewrite bool_decide_eq_false_2 by (destruct Hpr as [? ->]; discriminate).
    intros Hloop. apply IH in Hloop; [|assumption| |apply last_snoc].
    + destruct Hloop as (H1 & H2 & H3). split; [assumption|]. split; [assumption|].
      rewrite H3. destruct paths; [discriminate | reflexivity].
    + eapply parent_chain_snoc; eauto.
Qed.

Lemma parent_chain_shorter a l :
  parent_chain (a :: l) -> Forall (fun b => String.length b < String.length a) l.
Proof.
  revert a. induction l as [|b l IH]; intros a Hc; [constructor|].
  cbn [parent_chain] in Hc. destruct Hc as [[_ Hab] Hc].
  constructor; [exact Hab|].
  eapply Forall_impl; [apply IH; exact Hc|]. cbn. intros; lia.
Qed.

Lemma parent_chain_NoDup l : parent_chain l -> NoDup l.
Proof.
  induction l as [|a l IH]; intros Hc; [constructor|].
  constructor.
  - intros Hin. pose proof (parent_chain_shorter a l Hc) as Hs.
    rewrite Forall_forall in Hs. specialize (Hs a Hin). lia.
  - apply IH. destruct Hc as [_ Hc]. exact Hc.
Qed.

Lemma normalizePath_rooted p : rooted (normalizePath p).
Proof. apply normalizePath_head. Qed.

Lemma getBubblingPaths_loop path :
  bubbling_loop (String.length (normalizePath path)) (normalizePath path)
                [normalizePath path] = Some (getBubblingPaths path).
Proof.
  unfold getBubblingPaths, getBubblingPaths_fuel.
  destruct (bubbling_loop_enough (String.length (normalizePath path)) (normalizePath path)
              [normalizePath path]) as [l Hl].
  { pose proof (normalizePath_length path). lia. }
  rewrite Hl. reflexivity.
Qed.

(** X10.  The bubbling chain of a path starts at the normalized path and
    ends at the root; every entry is followed by its parent, which is
    strictly shorter; no path occurs twice. *)
Theorem getBubblingPaths_chain (path : string) :
  head (getBubblingPaths path) = Some (normalizePath path)
  /\ last (getBubblingPaths path) = Some "/"
  /\ parent_chain (getBubblingPaths path)
  /\ NoDup (getBubblingPaths path).
Proof.
  pose proof (getBubblingPaths_loop path) as Hf.
  apply bubbling_loop_chain in Hf;
    [|apply normalizePath_rooted | cbn; auto | reflexivity].
  destruct Hf as (H1 & H2 & H3).
  split; [exact H3|]. split; [exact H2|]. split; [exact H1|].
  apply parent_chain_NoDup. exact H1.
Qed.

Lemma lastIndexOf_append c s1 s2 :
  lastIndexOf c s2 = None ->
  lastIndexOf c (s1 ++ String c s2) = Some (String.length s1).
Proof.
  intros H2. induction s1 as [|a s1 IH]; simpl.
  - rewrite H2. rewrite bool_decide_eq_true_2; reflexivity.
  - rewrite IH. reflexivity.
Qed.

Lemma substring_0_append s1 s2 :
  String.substring 0 (String.length s1) (s1 ++ s2) = s1.
Proof.
  induction s1 as [|a s1 IH]; simpl.
  - destruct s2; reflexivity.
  - rewrite IH. reflexivity.
Qed.

(** X11.  The parent of [parent/name], for a name without a slash, is
    [parent], and the root when [parent] is empty. *)
Theorem getParentPath_child (parent name : string) :
  lastIndexOf slash name = None ->
  parent <> "" \/ name <> "" ->
  getParentPath (parent ++ String slash name) = if bool_decide (parent = "") then "/" else parent.
Proof.
  intros Hname Hne. unfold getParentPath.
  rewrite lastIndexOf_append by assumption.
  case_bool_decide as Hroot.
  - exfalso. destruct parent as [|a parent].
    + cbn in Hroot. destruct Hne as [Hne|Hne]; [congruence|].
      injection Hroot as Hn. congruence.
    + cbn in Hroot. injection Hroot as _ Hp. destruct parent; discriminate.
  - destruct parent as [|a parent]; [reflexivity|].
    rewrite bool_decide_eq_false_2 by discriminate.
    exact (substring_0_append (String a parent) (String slash name)).
Qed.

Lemma getParentPath_child_witness :
  getParentPath ("/sensors" ++ String slash "temp") = "/sensors".
Proof.
  rewrite (getParentPath_child "/sensors" "temp");
    [reflexivity | reflexivity | left; discriminate].
Defined.

(** * The live router: dispatch with callbacks that leave the router alone *)

Section LiveQuiet.
Variable behaviour : list Call -> list Op.

Lemma deliver_cases message targetPath listener :
  deliver message targetPath listener = []
  \/ exists c, deliver message targetPath listener = [c].
Proof.
  unfold deliver. destruct (_ && _); [|auto].
  destruct (_ && _); eauto.
Qed.

Lemma invoke_quiet fuel r history call :
  behaviour (history ++ [call]) = [] ->
  Live.invoke behaviour (S fuel) (r, history) call = Some (r, history ++ [call]).
Proof. intros H. cbn. rewrite H. reflexivity. Qed.

Lemma quiet_app calls1 calls2 :
  quiet behaviour (calls1 ++ calls2) <-> quiet behaviour calls1 /\ quiet behaviour calls2.
Proof.
  unfold quiet. split.
  - intros H. split; intros h c Hc; apply H; apply in_or_app; auto.
  - intros [H1 H2] h c Hc. apply in_app_or in Hc as [Hc|Hc]; auto.
Qed.

Lemma fired_from_end r arr i message targetPath :
  Live.array_at r arr !! i = None -> fired_from r arr i message targetPath = [].
Proof.
  intros H. unfold fired_from. rewrite drop_ge; [reflexivity|].
  apply lookup_ge_None. exact H.
Qed.

Lemma fired_from_step r arr i ref message targetPath :
  Live.array_at r arr !! i = Some ref ->
  fired_from r arr i message targetPath =
  match Live.objects r !! ref with
  | Some listener => deliver message targetPath listener
  | None => []
  end ++ fired_from r arr (S i) message targetPath.
Proof.
  intros H. unfold fired_from. rewrite (drop_S _ _ _ H).
  unfold Live.deref, Live.lookup_all. cbn [omap list_omap]. destruct (Live.objects r !! ref); reflexivity.
Qed.

Lemma listeners_loop_sound f fuel : forall r history arr i message targetPath st',
  quiet behaviour (fired_from r arr i message targetPath) ->
  Live.listeners_loop (Live.invoke behaviour (S f)) fuel (r, history) arr i message targetPath
    = Some st' ->
  st' = (r, history ++ fired_from r arr i message targetPath).
Proof.
  induction fuel as [|fuel IH]; intros r history arr i message targetPath st' Hq;
    [discriminate|].
  cbn [Live.listeners_loop fst snd].
  destruct (Live.array_at r arr !! i) as [ref|] eqn:Ei.
  - rewrite (fired_from_step _ _ _ _ _ _ Ei) in *.
    destruct (Live.objects r !! ref) as [listener|]; [|apply IH; exact Hq].
    destruct (deliver_cases message targetPath listener) as [Hd|[c Hd]]; rewrite Hd in *.
    + apply IH. exact Hq.
    + apply quiet_app in Hq as [Hc Hq].
      rewrite invoke_quiet by (apply Hc; left; reflexivity).
      cbn [mbind option_bind]. intros H. apply IH in H; [|exact Hq].
      rewrite H, <- app_assoc. reflexivity.
  - rewrite fired_from_end by assumption. rewrite app_nil_r. intros [= <-]. reflexivity.
Qed.

Lemma listeners_loop_total f fuel : forall r history arr i message targetPath,
  quiet behaviour (fired_from r arr i message targetPath) ->
  length (Live.array_at r arr) - i < fuel ->
  Live.listeners_loop (Live.invoke behaviour (S f)) fuel (r, history) arr i message targetPath
    = Some (r, history ++ fired_from r arr i message targetPath).
Proof.
  induction fuel as [|fuel IH]; intros r history arr i message targetPath Hq Hf; [lia|].
  cbn [Live.listeners_loop fst snd].
  destruct (Live.array_at r arr !! i) as [ref|] eqn:Ei.
  - pose proof (lookup_lt_Some _ _ _ Ei) as Hlt.
    rewrite (fired_from_step _ _ _ _ _ _ Ei) in *.
    destruct (Live.objects r !! ref) as [listener|]; [|apply IH; [exact Hq | lia]].
    destruct (deliver_cases message targetPath listener) as [Hd|[c Hd]]; rewrite Hd in *.
    + apply IH; [exact Hq | lia].
    + apply quiet_app in Hq as [Hc Hq].
      rewrite invoke_quiet by (apply Hc; left; reflexivity).
      cbn [mbind option_bind]. rewrite IH by (assumption || lia).
      rewrite <- app_assoc. reflexivity.
  - rewrite fired_from_end by assumption. rewrite app_nil_r. reflexivity.
Qed.

Lemma fired_from_0 r message targetPath :
  fired_from r (Live.listeners r) 0 message targetPath
  = flat_map (deliver message targetPath) (Live.listeners_now r).
Proof. reflexivity. Qed.

Lemma paths_loop_sound f fuel targetPaths : forall r history message st',
  quiet behaviour (fired_paths r message targetPaths) ->
  Live.paths_loop (Live.invoke behaviour (S f)) fuel (r, history) targetPaths message
    = Some st' ->
  st' = (r, history ++ fired_paths r message targetPaths).
Proof.
  induction targetPaths as [|targetPath rest IH]; intros r history message st' Hq.
  - cbn. rewrite app_nil_r. intros [= <-]. reflexivity.
  - cbn [Live.paths_loop fired_paths flat_map fst] in *.
    apply quiet_app in Hq as [Hq1 Hq2].
    destruct (Live.listeners_loop _ fuel (r, history) _ 0 message targetPath) as [st1|] eqn:E;
      [|discriminate].
    apply listeners_loop_sound in E; [|exact Hq1]. subst st1.
    cbn [mbind option_bind]. intros H. apply IH in H; [|exact Hq2].
    rewrite H, <- app_assoc. reflexivity.
Qed.

Lemma paths_loop_total f fuel targetPaths : forall r history message,
  quiet behaviour (fired_paths r message targetPaths) ->
  length (Live.array_at r (Live.listeners r)) < fuel ->
  Live.paths_loop (Live.invoke behaviour (S f)) fuel (r, history) targetPaths message
    = Some (r, history ++ fired_paths r message targetPaths).
Proof.
  induction targetPaths as [|targetPath rest IH]; intros r history message Hq Hf.
  - cbn. rewrite app_nil_r. reflexivity.
  - cbn [Live.paths_loop fired_paths flat_map fst] in *.
    apply quiet_app in Hq as [Hq1 Hq2].
    rewrite listeners_loop_total by (assumption || lia).
    cbn [mbind option_bind]. rewrite IH by assumption.
    rewrite <- app_assoc. reflexivity.
Qed.

Lemma validateMessageLock_view r message :
  Live.validateMessageLock r message = validateMessageLock (live_view r) message.
Proof. reflexivity. Qed.

(** Immediate dispatch as the plain router does it: the calls it makes
    and its result. *)
Lemma processMessageImmediate_sound f fuel r history message senderPath res :
  quiet behaviour (fst (processMessageImmediate (live_view r) message senderPath)) ->
  Live.processMessageImmediate (Live.invoke behaviour (S f)) fuel (r, history) message senderPath
    = Some res ->
  res = ((r, history ++ fst (processMessageImmediate (live_view r) message senderPath)),
         snd (processMessageImmediate (live_view r) message senderPath)).
Proof.
  rewrite processMessageImmediate_eq. unfold Live.processMessageImmediate.
  cbv zeta. cbn [fst snd live_view pathLocks listeners].
  case_bool_decide as Hl.
  - cbn. rewrite app_nil_r. intros _ [= <-]. reflexivity.
  - rewrite validateMessageLock_view, validateMessageLock_unlocked.
    2:{ cbn. destruct (Live.pathLocks r !! _); [exfalso; eauto | reflexivity]. }
    cbn [negb fst snd]. intros Hq.
    destruct (Live.paths_loop _ fuel (r, history) _ message) as [st1|] eqn:E; [|discriminate].
    apply paths_loop_sound in E; [|exact Hq]. subst st1.
    cbn. intros [= <-]. reflexivity.
Qed.

Lemma processMessageImmediate_total f fuel r history message senderPath :
  quiet behaviour (fst (processMessageImmediate (live_view r) message senderPath)) ->
  length (Live.array_at r (Live.listeners r)) < fuel ->
  Live.processMessageImmediate (Live.invoke behaviour (S f)) fuel (r, history) message senderPath
  = Some ((r, history ++ fst (processMessageImmediate (live_view r) message senderPath)),
          snd (processMessageImmediate (live_view r) message senderPath)).
Proof.
  rewrite processMessageImmediate_eq. unfold Live.processMessageImmediate.
  cbv zeta. cbn [fst snd live_view pathLocks listeners].
  case_bool_decide as Hl.
  - cbn. rewrite app_nil_r. reflexivity.
  - rewrite validateMessageLock_view, validateMessageLock_unlocked.
    2:{ cbn. destruct (Live.pathLocks r !! _); [exfalso; eauto | reflexivity]. }
    cbn [negb fst snd]. intros Hq Hf.
    rewrite paths_loop_total by assumption. reflexivity.
Qed.

Lemma replay_set_messageQueue r q queue :
  replay (live_view (Live.set_messageQueue r q)) queue = replay (live_view r) queue.
Proof. reflexivity. Qed.

Lemma live_processQueue_loop_sound f fuel : forall r history st',
  quiet behaviour (replay (live_view r) (Live.messageQueue r)) ->
  Live.processQueue_loop (Live.invoke behaviour (S f)) fuel (r, history) = Some st' ->
  st' = (Live.set_messageQueue r [], history ++ replay (live_view r) (Live.messageQueue r)).
Proof.
  induction fuel as [|fuel IH]; intros r history st' Hq.
  - destruct r as [o a q n l mq pl lq nl nm]. cbn in *. destruct mq; [|discriminate].
    rewrite app_nil_r. intros [= <-]. reflexivity.
  - destruct r as [o a q n l mq pl lq nl nm]. cbn [Live.processQueue_loop Live.messageQueue fst snd] in *.
    destruct mq as [|x mq].
    + cbn. rewrite app_nil_r. intros [= <-]. reflexivity.
    + unfold replay in Hq. cbn [flat_map] in Hq. apply quiet_app in Hq as [Hq1 Hq2].
      match goal with |- context [Live.processMessageImmediate _ fuel (?r1, history) _ _] =>
        set (r' := r1) end.
      destruct (Live.processMessageImmediate _ fuel (r', history) _ _) as [res|] eqn:E;
        [|discriminate].
      apply processMessageImmediate_sound in E; [|exact Hq1]. subst res.
      cbn [mbind option_bind fst snd]. intros H. apply IH in H; [|exact Hq2].
      rewrite H. unfold replay. cbn [flat_map]. rewrite <- app_assoc. reflexivity.
Qed.

Lemma live_processQueue_loop_total f fuel : forall r history,
  quiet behaviour (replay (live_view r) (Live.messageQueue r)) ->
  length (Live.messageQueue r) + length (Live.array_at r (Live.listeners r)) < fuel ->
  Live.processQueue_loop (Live.invoke behaviour (S f)) fuel (r, history)
  = Some (Live.set_messageQueue r [],
          history ++ replay (live_view r) (Live.messageQueue r)).
Proof.
  induction fuel as [|fuel IH]; intros r history Hq Hf; [lia|].
  destruct r as [o a q n l mq pl lq nl nm]. cbn [Live.processQueue_loop Live.messageQueue fst snd] in *.
  destruct mq as [|x mq].
  - cbn. rewrite app_nil_r. reflexivity.
  - unfold replay in Hq. cbn [flat_map] in Hq. apply quiet_app in Hq as [Hq1 Hq2].
    match goal with |- context [Live.processMessageImmediate _ fuel (?r1, history) _ _] =>
      set (r' := r1) end.
    rewrite (processMessageImmediate_total f fuel r'); [|exact Hq1|subst r'; unfold Live.array_at in *; cbn in *; lia].
    cbn [mbind option_bind fst snd]. rewrite IH; [|exact Hq2|subst r'; unfold Live.array_at in *; cbn in *; lia].
    unfold replay. cbn [flat_map]. rewrite <- app_assoc. reflexivity.
Qed.


Lemma live_calls_eq r message senderPath :
  fst (processMessageImmediate (live_view r) message senderPath) = live_calls r message.
Proof.
  rewrite processMessageImmediate_eq. unfold live_calls. cbn [live_view pathLocks listeners].
  case_bool_decide; reflexivity.
Qed.

Lemma replay_live_calls r queue :
  replay (live_view r) queue = flat_map (fun e => live_calls r (q_message e)) queue.
Proof.
  unfold replay. apply flat_map_ext. intros e. apply live_calls_eq.
Qed.


End LiveQuiet.



Section LiveReplay.
Variable behaviour : list Call -> list Op.

Lemma replayed_from_end r qref i :
  Live.queue_at r qref !! i = None -> replayed_from r qref i = [].
Proof.
  intros H. unfold replayed_from. rewrite drop_ge; [reflexivity|].
  apply lookup_ge_None. exact H.
Qed.

Lemma replayed_from_step r qref i e :
  Live.queue_at r qref !! i = Some e ->
  replayed_from r qref i = live_calls r (q_message e) ++ replayed_from r qref (S i).
Proof. intros H. unfold replayed_from. rewrite (drop_S _ _ _ H). reflexivity. Qed.

Lemma replay_loop_sound f fuel : forall r history qref i st',
  quiet behaviour (replayed_from r qref i) ->
  Live.replay_loop (Live.invoke behaviour (S f)) fuel (r, history) qref i = Some st' ->
  st' = (r, history ++ replayed_from r qref i).
Proof.
  induction fuel as [|fuel IH]; intros r history qref i st' Hq; [discriminate|].
  cbn [Live.replay_loop fst snd].
  destruct (Live.queue_at r qref !! i) as [e|] eqn:Ei.
  - rewrite (replayed_from_step _ _ _ _ Ei) in *. apply quiet_app in Hq as [Hq1 Hq2].
    destruct (Live.processMessageImmediate _ fuel (r, history) _ _) as [res|] eqn:E;
      [|discriminate].
    apply processMessageImmediate_sound in E;
      [|rewrite live_calls_eq; exact Hq1].
    subst res. rewrite live_calls_eq. cbn [mbind option_bind].
    intros H. apply IH in H; [|exact Hq2]. rewrite H, <- app_assoc. reflexivity.
  - rewrite replayed_from_end by assumption. rewrite app_nil_r.
    intros [= <-]. reflexivity.
Qed.

Lemma replay_loop_total f fuel : forall r history qref i,
  quiet behaviour (replayed_from r qref i) ->
  length (Live.queue_at r qref) - i + length (Live.array_at r (Live.listeners r)) < fuel ->
  Live.replay_loop (Live.invoke behaviour (S f)) fuel (r, history) qref i
  = Some (r, history ++ replayed_from r qref i).
Proof.
  induction fuel as [|fuel IH]; intros r history qref i Hq Hf; [lia|].
  cbn [Live.replay_loop fst snd].
  destruct (Live.queue_at r qref !! i) as [e|] eqn:Ei.
  - pose proof (lookup_lt_Some _ _ _ Ei) as Hlt.
    rewrite (replayed_from_step _ _ _ _ Ei) in *. apply quiet_app in Hq as [Hq1 Hq2].
    rewrite processMessageImmediate_total;
      [|rewrite live_calls_eq; exact Hq1|lia].
    rewrite live_calls_eq. cbn [mbind option_bind].
    rewrite IH; [|exact Hq2|lia]. rewrite <- app_assoc. reflexivity.
  - rewrite replayed_from_end by assumption. rewrite app_nil_r. reflexivity.
Qed.

(** X2.  [unlockPath] on the router as the source runs it.  Let the
    normalized path be a fixed point of [normalizePath], its lock not
    finalized and owned by [ownerID], and its queue hold only messages
    addressed to it.  When no callback invoked during the replay calls
    back into the router, [unlockPath] terminates, returns [true], removes
    the lock record and the queue entry, and dispatches every queued
    message to the listeners, in enqueue order, as an unlocked send. *)
Theorem live_unlockPath_replays_in_order
    (r : Live.Router) (history : list Call) (path ownerID : string)
    (lock : Lock) (qref : nat) (fuel : nat) :
  let k := normalizePath path in
  let queue := Live.queue_at r qref in
  let calls := flat_map (fun e => dispatch (Live.listeners_now r) (q_message e)) queue in
  normalizePath k = k ->
  Live.pathLocks r !! k = Some lock ->
  lock_finalized lock = false ->
  lock_senderOwner lock = ownerID \/ lock_receiverOwner lock = ownerID ->
  Live.lockedPathQueues r !! k = Some qref ->
  Forall (fun e => msg_path (q_message e) = k) queue ->
  quiet behaviour calls ->
  length queue + length (Live.array_at r (Live.listeners r)) < fuel ->
  Live.unlockPath (Live.invoke behaviour fuel) fuel (r, history) path ownerID
  = Some (Live.set_lockedPathQueues
            (Live.set_pathLocks r (delete k (Live.pathLocks r)))
            (delete k (Live.lockedPathQueues r)),
          history ++ calls, true).
Proof.
  intros k queue calls Hk Hl Hf Ho Hqref Hall Hq Hfuel.
  destruct fuel as [|f]; [lia|].
  unfold Live.unlockPath. cbv zeta. cbn [fst snd]. fold k. rewrite Hl, Hf.
  replace (negb (bool_decide (lock_senderOwner lock = ownerID))
           && negb (bool_decide (lock_receiverOwner lock = ownerID))) with false.
  2:{ destruct Ho as [Ho|Ho]; rewrite (bool_decide_eq_true_2 _ Ho); cbn;
        [reflexivity | symmetry; apply andb_false_r]. }
  cbn [Live.lockedPathQueues Live.set_pathLocks]. rewrite Hqref.
  set (r1 := Live.set_pathLocks r (delete k (Live.pathLocks r))).
  assert (Hcalls : replayed_from r1 qref 0 = calls).
  { unfold replayed_from, calls. rewrite drop_0.
    change (Live.queue_at r1 qref) with queue.
    clear Hq Hfuel. induction Hall as [|e l He _ IH]; [reflexivity|].
    cbn [flat_map]. rewrite IH. f_equal.
    unfold live_calls. rewrite He, Hk. subst r1. cbn [Live.pathLocks Live.set_pathLocks].
    rewrite lookup_delete_eq. rewrite bool_decide_eq_false_2 by (intros [? ?]; discriminate).
    reflexivity. }
  rewrite replay_loop_total;
    [|rewrite Hcalls; exact Hq
     |change (Live.queue_at r1 qref) with queue;
      change (Live.array_at r1 (Live.listeners r1))
        with (Live.array_at r (Live.listeners r)); lia].
  rewrite Hcalls. reflexivity.
Qed.

(** X3.  [sendMessage] on the router as the source runs it, when the
    normalized path is a fixed point of [normalizePath] and carries no
    lock.  Whatever other paths are locked and whatever the callbacks do,
    a call that returns returns [true].  When no callback invoked during
    the dispatch calls back into the router, the call terminates, invokes
    the listeners along the bubbling chain as immediate dispatch does,
    every active listener on a path of the chain that the receiverID
    allows among them, and changes nothing but the message counter. *)
Theorem live_sendMessage_ignores_ancestor_locks
    (r : Live.Router) (history : list Call) (path data senderID receiverID : string)
    (queueIfLocked : bool) (now : Z) :
  normalizePath (normalizePath path) = normalizePath path ->
  Live.pathLocks r !! normalizePath path = None ->
  let message := {| msg_path := normalizePath path; msg_data := data;
                    msg_senderID := senderID; msg_receiverID := receiverID;
                    msg_timestamp := now; msg_messageId := Live.nextMessageId r |} in
  let calls := dispatch (Live.listeners_now r) message in
  (forall fuel res,
     Live.sendMessage (Live.invoke behaviour fuel) fuel (r, history)
                      path data senderID receiverID queueIfLocked now = Some res ->
     snd res = true)
  /\ (quiet behaviour calls ->
      (forall fuel, length (Live.array_at r (Live.listeners r)) < fuel ->
         Live.sendMessage (Live.invoke behaviour fuel) fuel (r, history)
                          path data senderID receiverID queueIfLocked now
         = Some (Live.set_nextMessageId r (S (Live.nextMessageId r)),
                 history ++ calls, true))
      /\ forall l targetPath,
           In l (Live.listeners_now r) ->
           In targetPath (getBubblingPaths (normalizePath path)) ->
           lst_path l = targetPath -> lst_active l = true ->
           (receiverID = "" \/ toString (lst_id l) = receiverID) ->
           In {| call_callback := lst_callback l; call_message := message;
                 call_path := targetPath; call_senderID := senderID |} calls).
Proof.
  intros Hk Hl message calls.
  assert (Hno : bool_decide (is_Some (Live.pathLocks r !! normalizePath path)) = false).
  { rewrite Hl. apply bool_decide_eq_false_2. intros [? ?]; discriminate. }
  set (r1 := Live.set_nextMessageId r (S (Live.nextMessageId r))).
  assert (Hv : validateMessageLock (live_view r1) message = true).
  { apply validateMessageLock_unlocked. cbn. rewrite Hk. exact Hl. }
  assert (Hc : fst (processMessageImmediate (live_view r1) message "") = calls).
  { rewrite live_calls_eq. unfold live_calls, message, r1.
    cbn [msg_path Live.pathLocks Live.set_nextMessageId].
    rewrite Hk, Hno. reflexivity. }
  assert (Hb : snd (processMessageImmediate (live_view r1) message "") = true).
  { rewrite processMessageImmediate_eq. unfold message, r1.
    cbn [live_view pathLocks msg_path Live.pathLocks Live.set_nextMessageId].
    rewrite Hk, Hno. reflexivity. }
  assert (Hno1 : bool_decide (is_Some (Live.pathLocks r1 !! normalizePath (msg_path message)))
                 = false).
  { unfold message, r1. cbn [msg_path Live.pathLocks Live.set_nextMessageId].
    rewrite Hk. exact Hno. }
  split; [|intros Hq; split].
  - intros fuel res. unfold Live.sendMessage. cbv zeta.
    cbn [fst snd Live.pathLocks Live.set_nextMessageId]. rewrite Hno. fold r1. fold message.
    unfold Live.processMessageImmediate. cbv zeta. cbn [fst snd].
    rewrite Hno1, validateMessageLock_view, Hv. cbn [negb].
    destruct (Live.paths_loop _ _ _ _ _) as [st1|]; [|discriminate].
    cbn. intros [= <-]. reflexivity.
  - intros fuel Hf. destruct fuel as [|f]; [lia|].
    unfold Live.sendMessage. cbv zeta.
    cbn [fst snd Live.pathLocks Live.set_nextMessageId]. rewrite Hno. fold r1. fold message.
    rewrite processMessageImmediate_total; [|rewrite Hc; exact Hq|exact Hf].
    rewrite Hc, Hb. reflexivity.
  - intros l tp Hin Htp Hp Ha Hrc. apply in_dispatch. exists tp, l.
    split; [exact Htp|]. split; [exact Hin|].
    unfold deliver. rewrite Hp, Ha. rewrite bool_decide_eq_true_2 by reflexivity.
    cbn [andb msg_receiverID msg_senderID message].
    destruct Hrc as [->| <-].
    + cbn. left. reflexivity.
    + rewrite (bool_decide_eq_true_2 (toString (lst_id l) = toString (lst_id l))) by reflexivity.
      cbn [negb]. rewrite andb_false_r. left. reflexivity.
Qed.

End LiveReplay.

(** * The live router seen as a plain router *)

(** Projections of a live router that was built by setters. *)
Ltac live_simpl :=
  cbn [fst snd default from_option id
       Live.objects Live.arrays Live.queues Live.nextRef Live.listeners Live.messageQueue
       Live.pathLocks Live.lockedPathQueues Live.nextListenerId Live.nextMessageId
       Live.set_objects Live.set_arrays Live.set_queues Live.set_nextRef Live.set_listeners
       Live.set_messageQueue Live.set_pathLocks Live.set_lockedPathQueues
       Live.set_nextListenerId Live.set_nextMessageId
       listeners messageQueue pathLocks lockedPathQueues nextListenerId nextMessageId
       set_listeners set_messageQueue set_pathLocks set_lockedPathQueues
       set_nextListenerId set_nextMessageId live_view] in *.

Section LiveView.

Lemma router_eq (r1 r2 : Router) :
  listeners r1 = listeners r2 -> messageQueue r1 = messageQueue r2 ->
  pathLocks r1 = pathLocks r2 -> lockedPathQueues r1 = lockedPathQueues r2 ->
  nextListenerId r1 = nextListenerId r2 -> nextMessageId r1 = nextMessageId r2 ->
  r1 = r2.
Proof. destruct r1, r2. cbn. intros; subst; reflexivity. Qed.

Lemma live_view_new : live_view Live.new_MessageRouter = new_MessageRouter.
Proof. apply router_eq; reflexivity. Qed.

Lemma live_wf_new : live_wf Live.new_MessageRouter.
Proof.
  repeat split.
  - vm_compute. constructor.
  - intros ref H. vm_compute in H. contradiction.
  - intros k qref H. cbn in H. rewrite lookup_empty in H. discriminate.
  - intros k1 k2 qref H. cbn in H. rewrite lookup_empty in H. discriminate.
Qed.

(** Reading references through a heap that grew by a fresh object. *)
Lemma lookup_all_insert_fresh (objs : gmap nat Listener) new l (refs : list nat) :
  (forall ref, In ref refs -> ref <> new) ->
  Live.lookup_all (<[new := l]> objs) refs = Live.lookup_all objs refs.
Proof.
  intros H. unfold Live.lookup_all. apply list_omap_ext. apply Forall2_same_length_lookup_2; [reflexivity|].
  intros i x y Hx Hy. rewrite Hx in Hy. injection Hy as <-.
  apply lookup_insert_ne. intros ->. apply (H x); [|reflexivity].
  apply list_elem_of_In. eapply list_elem_of_lookup_2. exact Hx.
Qed.

Lemma view_addListener r path callback ownerID now :
  live_wf r ->
  live_view (fst (Live.addListener r path callback ownerID now))
  = fst (addListener (live_view r) path callback ownerID now)
  /\ live_wf (fst (Live.addListener r path callback ownerID now)).
Proof.
  intros (Hnd & Hlt & Hq & Hinj). split.
  - apply router_eq; try reflexivity.
    unfold Live.addListener, addListener. live_simpl.
    unfold Live.listeners_now, Live.array_at, Live.deref. live_simpl.
    rewrite lookup_insert_eq. live_simpl.
    unfold Live.lookup_all at 1. rewrite omap_app. cbn [omap list_omap].
    rewrite lookup_insert_eq. f_equal. apply lookup_all_insert_fresh.
    intros ref Hin Heq. apply Hlt in Hin. lia.
  - unfold live_wf, Live.addListener, Live.array_at in *. live_simpl.
    rewrite lookup_insert_eq. live_simpl. repeat split.
    + apply NoDup_app. split; [exact Hnd|]. split; [|apply NoDup_singleton].
      intros x Hx Hx'. apply list_elem_of_singleton in Hx'. subst x.
      apply list_elem_of_In, Hlt in Hx. lia.
    + intros ref Hin. apply in_app_or in Hin as [Hin|[<-|[]]]; [apply Hlt in Hin|]; lia.
    + intros k qref H. apply Hq in H. lia.
    + exact Hinj.
Qed.

Lemma remove_first_id_deref (objs : gmap nat Listener) listenerId refs :
  Live.lookup_all objs <$> Live.remove_first_id objs listenerId refs
  = remove_first_id listenerId (Live.lookup_all objs refs).
Proof.
  induction refs as [|ref refs IH]; [reflexivity|].
  unfold Live.lookup_all at 2. cbn [Live.remove_first_id omap list_omap].
  fold (Live.lookup_all objs refs).
  destruct (objs !! ref) as [l|] eqn:E.
  - cbn [fmap option_fmap option_map remove_first_id].
    destruct (decide (lst_id l = listenerId)) as [Hid|Hid].
    + rewrite !bool_decide_eq_true_2 by congruence. reflexivity.
    + rewrite !bool_decide_eq_false_2 by congruence.
      rewrite <- IH. destruct (Live.remove_first_id objs listenerId refs);
        cbn [fmap option_fmap option_map]; [|reflexivity].
      unfold Live.lookup_all at 1. cbn [omap list_omap]. rewrite E. reflexivity.
  - cbn [fmap option_fmap option_map]. rewrite bool_decide_eq_false_2 by discriminate.
    rewrite <- IH. destruct (Live.remove_first_id objs listenerId refs);
      cbn [fmap option_fmap option_map]; [|reflexivity].
    unfold Live.lookup_all at 1. cbn [omap list_omap]. rewrite E. reflexivity.
Qed.

Lemma remove_first_id_sublist (objs : gmap nat Listener) listenerId refs refs' :
  Live.remove_first_id objs listenerId refs = Some refs' -> sublist refs' refs.
Proof.
  revert refs'. induction refs as [|ref refs IH]; intros refs'; [discriminate|].
  cbn [Live.remove_first_id]. case_bool_decide.
  - intros [= <-]. apply sublist_cons. reflexivity.
  - destruct (Live.remove_first_id objs listenerId refs); [|discriminate].
    intros [= <-]. apply sublist_skip. apply IH. reflexivity.
Qed.

(** Well-formedness is kept when [this.listeners] shrinks in place. *)
Lemma live_wf_shrink r refs :
  live_wf r -> sublist refs (Live.array_at r (Live.listeners r)) ->
  live_wf (Live.set_arrays r (<[Live.listeners r := refs]> (Live.arrays r))).
Proof.
  intros (Hnd & Hlt & Hq & Hinj) Hsub. unfold live_wf, Live.array_at in *. live_simpl.
  rewrite lookup_insert_eq. live_simpl. repeat split.
  - eapply sublist_NoDup; eauto.
  - intros ref Hin. apply Hlt. apply list_elem_of_In.
    apply (sublist_subseteq _ _ Hsub). apply list_elem_of_In. exact Hin.
  - exact Hq.
  - exact Hinj.
Qed.

Lemma view_removeListener r listenerId :
  live_wf r ->
  live_view (fst (Live.removeListener r listenerId))
  = fst (removeListener (live_view r) listenerId)
  /\ live_wf (fst (Live.removeListener r listenerId)).
Proof.
  intros Hwf. unfold Live.removeListener, removeListener. live_simpl.
  pose proof (remove_first_id_deref (Live.objects r) listenerId
                (Live.array_at r (Live.listeners r))) as Hd.
  fold (Live.deref r (Live.array_at r (Live.listeners r))) in Hd.
  fold (Live.listeners_now r) in Hd. rewrite <- Hd.
  destruct (Live.remove_first_id _ _ _) as [refs|] eqn:E; cbn [fmap option_fmap option_map fst].
  - split.
    + apply router_eq; try reflexivity. live_simpl.
      unfold Live.listeners_now, Live.array_at, Live.deref. live_simpl.
      rewrite lookup_insert_eq. reflexivity.
    + apply live_wf_shrink; [exact Hwf|]. eapply remove_first_id_sublist; eauto.
  - split; [reflexivity | exact Hwf].
Qed.

Lemma view_removeListeners_loop listenerIds : forall r n m,
  live_wf r ->
  live_view (fst (Live.removeListeners_loop r listenerIds n))
  = fst (removeListeners_loop (live_view r) listenerIds m)
  /\ live_wf (fst (Live.removeListeners_loop r listenerIds n)).
Proof.
  induction listenerIds as [|id ids IH]; intros r n m Hwf; [split; [reflexivity|exact Hwf]|].
  cbn [Live.removeListeners_loop removeListeners_loop].
  destruct (view_removeListener r id Hwf) as [Hv Hw].
  destruct (Live.removeListener r id) as [r1 b1].
  destruct (removeListener (live_view r) id) as [r2 b2]. cbn [fst] in *. subst r2.
  apply IH. exact Hw.
Qed.

Lemma live_wf_replace r refs :
  live_wf r -> sublist refs (Live.array_at r (Live.listeners r)) ->
  live_wf (Live.replace_listeners r refs).
Proof.
  intros (Hnd & Hlt & Hq & Hinj) Hsub.
  unfold live_wf, Live.replace_listeners, Live.array_at in *. live_simpl.
  rewrite lookup_insert_eq. live_simpl. repeat split.
  - eapply sublist_NoDup; eauto.
  - intros ref Hin. apply Nat.lt_lt_succ_r, Hlt. apply list_elem_of_In.
    apply (sublist_subseteq _ _ Hsub). apply list_elem_of_In. exact Hin.
  - intros k qref H. apply Nat.lt_lt_succ_r. eapply Hq. exact H.
  - exact Hinj.
Qed.

Lemma listeners_now_replace r refs :
  Live.listeners_now (Live.replace_listeners r refs) = Live.lookup_all (Live.objects r) refs.
Proof.
  unfold Live.listeners_now, Live.replace_listeners, Live.array_at, Live.deref. live_simpl.
  rewrite lookup_insert_eq. reflexivity.
Qed.

Lemma lookup_all_filter {B : Type} `{EqDecision B} (objs : gmap nat Listener)
    (f : Listener -> B) (v : B) refs :
  Live.lookup_all objs (filter (fun ref => f <$> objs !! ref <> Some v) refs)
  = filter (fun l => f l <> v) (Live.lookup_all objs refs).
Proof.
  induction refs as [|ref refs IH]; [reflexivity|].
  rewrite filter_cons. unfold Live.lookup_all at 2. cbn [omap list_omap].
  fold (Live.lookup_all objs refs).
  destruct (objs !! ref) as [l|] eqn:E; cbn [fmap option_fmap option_map].
  - rewrite filter_cons. destruct (decide (f l = v)) as [Hv|Hv].
    + rewrite decide_False by (intros H; apply H; congruence).
      rewrite decide_False by (intros H; apply H; congruence). exact IH.
    + rewrite decide_True by congruence. rewrite decide_True by congruence.
      unfold Live.lookup_all at 1. cbn [omap list_omap]. rewrite E.
      fold (Live.lookup_all objs (filter (fun ref => f <$> objs !! ref <> Some v) refs)).
      rewrite IH. reflexivity.
  - rewrite decide_True by discriminate.
    unfold Live.lookup_all at 1. cbn [omap list_omap]. rewrite E.
    fold (Live.lookup_all objs (filter (fun ref => f <$> objs !! ref <> Some v) refs)).
    exact IH.
Qed.

Lemma view_removeListenersByPath r path :
  live_wf r ->
  live_view (fst (Live.removeListenersByPath r path))
  = fst (removeListenersByPath (live_view r) path)
  /\ live_wf (fst (Live.removeListenersByPath r path)).
Proof.
  intros Hwf. unfold Live.removeListenersByPath, removeListenersByPath. cbn [fst]. split.
  - apply router_eq; try reflexivity. live_simpl.
    rewrite listeners_now_replace. apply (lookup_all_filter _ lst_path).
  - apply live_wf_replace; [exact Hwf|]. apply sublist_filter.
Qed.

Lemma view_removeListenersByOwner r ownerID :
  live_wf r ->
  live_view (fst (Live.removeListenersByOwner r ownerID))
  = fst (removeListenersByOwner (live_view r) ownerID)
  /\ live_wf (fst (Live.removeListenersByOwner r ownerID)).
Proof.
  intros Hwf. unfold Live.removeListenersByOwner, removeListenersByOwner. cbn [fst]. split.
  - apply router_eq; try reflexivity. live_simpl.
    rewrite listeners_now_replace. apply (lookup_all_filter _ lst_ownerID).
  - apply live_wf_replace; [exact Hwf|]. apply sublist_filter.
Qed.

Lemma view_clearListeners r :
  live_wf r ->
  live_view (Live.clearListeners r) = clearListeners (live_view r)
  /\ live_wf (Live.clearListeners r).
Proof.
  intros Hwf. unfold Live.clearListeners, clearListeners. split.
  - apply router_eq; try reflexivity. live_simpl. apply listeners_now_replace.
  - apply live_wf_replace; [exact Hwf|]. apply sublist_nil_l.
Qed.

Lemma find_id_In (objs : gmap nat Listener) listenerId refs ref :
  Live.find_id objs listenerId refs = Some ref -> In ref refs.
Proof.
  induction refs as [|ref0 refs IH]; [discriminate|].
  cbn [Live.find_id]. case_bool_decide.
  - intros [= <-]. left. reflexivity.
  - intros Hf. right. apply IH. exact Hf.
Qed.

Lemma lookup_all_alter_fresh (objs : gmap nat Listener) f ref (refs : list nat) :
  ~ In ref refs ->
  Live.lookup_all (alter f ref objs) refs = Live.lookup_all objs refs.
Proof.
  intros H. unfold Live.lookup_all. apply list_omap_ext.
  apply Forall2_same_length_lookup_2; [reflexivity|].
  intros i x y Hx Hy. rewrite Hx in Hy. injection Hy as <-.
  apply lookup_alter_ne. intros ->. apply H.
  apply list_elem_of_In. eapply list_elem_of_lookup_2. exact Hx.
Qed.

Lemma activate_first_id_cons listenerId active l rest :
  activate_first_id listenerId active (l :: rest)
  = if bool_decide (lst_id l = listenerId) then Some (set_active active l :: rest)
    else option_map (cons l) (activate_first_id listenerId active rest).
Proof. reflexivity. Qed.

Lemma lookup_all_cons (objs : gmap nat Listener) ref refs :
  Live.lookup_all objs (ref :: refs)
  = match objs !! ref with
    | Some l => l :: Live.lookup_all objs refs
    | None => Live.lookup_all objs refs
    end.
Proof. reflexivity. Qed.

Lemma find_id_activate (objs : gmap nat Listener) listenerId active refs :
  NoDup refs ->
  match Live.find_id objs listenerId refs with
  | Some ref =>
      activate_first_id listenerId active (Live.lookup_all objs refs)
      = Some (Live.lookup_all (alter (set_active active) ref objs) refs)
  | None => activate_first_id listenerId active (Live.lookup_all objs refs) = None
  end.
Proof.
  induction 1 as [|ref0 refs Hnin Hnd IH]; [reflexivity|].
  rewrite list_elem_of_In in Hnin.
  cbn [Live.find_id]. rewrite (lookup_all_cons objs).
  destruct (objs !! ref0) as [l|] eqn:E; cbn [fmap option_fmap option_map].
  - rewrite activate_first_id_cons. destruct (decide (lst_id l = listenerId)) as [Hid|Hid].
    + rewrite !bool_decide_eq_true_2 by congruence.
      rewrite lookup_all_cons, lookup_alter_eq, E. cbn [fmap option_fmap option_map].
      rewrite lookup_all_alter_fresh by exact Hnin. reflexivity.
    + rewrite !bool_decide_eq_false_2 by congruence.
      destruct (Live.find_id objs listenerId refs) as [ref|] eqn:Ef.
      * rewrite IH. cbn [option_map].
        rewrite lookup_all_cons, lookup_alter_ne, E; [reflexivity|].
        intros ->. apply Hnin. eapply find_id_In. exact Ef.
      * rewrite IH. reflexivity.
  - rewrite bool_decide_eq_false_2 by discriminate.
    destruct (Live.find_id objs listenerId refs) as [ref|] eqn:Ef.
    + rewrite IH. rewrite lookup_all_cons, lookup_alter_ne, E; [reflexivity|].
      intros ->. apply Hnin. eapply find_id_In. exact Ef.
    + exact IH.
Qed.

Lemma view_setListenerActive r listenerId active :
  live_wf r ->
  live_view (fst (Live.setListenerActive r listenerId active))
  = fst (setListenerActive (live_view r) listenerId active)
  /\ live_wf (fst (Live.setListenerActive r listenerId active)).
Proof.
  intros Hwf. pose proof Hwf as (Hnd & _).
  pose proof (find_id_activate (Live.objects r) listenerId active _ Hnd) as H.
  unfold Live.setListenerActive, setListenerActive. live_simpl.
  unfold Live.listeners_now at 1, Live.deref.
  destruct (Live.find_id _ _ _) as [ref|]; rewrite H; cbn [fst].
  - split; [apply router_eq; reflexivity | exact Hwf].
  - split; [reflexivity | exact Hwf].
Qed.

(** The per-path queues as the plain router has them, after the queue
    array of [k] was written. *)
Lemma view_queues_write r r' (m : gmap string nat) k qref queue :
  Live.queues r' = <[qref := queue]> (Live.queues r) ->
  (forall k', m !! k' = Some qref -> k' = k) ->
  Live.queue_at r' <$> <[k := qref]> m = <[k := queue]> (Live.queue_at r <$> m).
Proof.
  intros Hr' Hinj. apply map_eq. intros i. rewrite lookup_fmap.
  destruct (decide (k = i)) as [<-|Hne].
  - rewrite !lookup_insert_eq. cbn. unfold Live.queue_at. rewrite Hr'.
    rewrite lookup_insert_eq. reflexivity.
  - rewrite !lookup_insert_ne by assumption. rewrite lookup_fmap.
    destruct (m !! i) as [ref|] eqn:E; [|reflexivity].
    cbn. f_equal. unfold Live.queue_at. rewrite Hr'.
    rewrite lookup_insert_ne; [reflexivity|].
    intros ->. apply Hne. symmetry. apply Hinj. exact E.
Qed.

Lemma view_lockPath r path mode ownerID senderID receiverID now :
  live_wf r ->
  live_view (fst (Live.lockPath r path mode ownerID senderID receiverID now))
  = fst (lockPath (live_view r) path mode ownerID senderID receiverID now)
  /\ live_wf (fst (Live.lockPath r path mode ownerID senderID receiverID now)).
Proof.
  intros (Hnd & Hlt & Hq & Hinj). unfold Live.lockPath, lockPath. cbv zeta. live_simpl.
  destruct (match Live.pathLocks r !! normalizePath path with
            | Some e => lock_finalized e | None => false end);
    [split; [reflexivity | repeat split; assumption]|].
  cbn [fst]. live_simpl. rewrite lookup_fmap.
  destruct (Live.lockedPathQueues r !! normalizePath path) as [qref|] eqn:E;
    cbn [fmap option_fmap option_map]; live_simpl.
  - split; [apply router_eq; reflexivity | repeat split; assumption].
  - split.
    + apply router_eq; try reflexivity. live_simpl.
      apply (view_queues_write r); [reflexivity|].
      intros k' Hk'. apply Hq in Hk'. lia.
    + unfold live_wf, Live.array_at in *. live_simpl. repeat split.
      * exact Hnd.
      * intros ref Hin. apply Nat.lt_lt_succ_r, Hlt, Hin.
      * intros k qref. destruct (decide (normalizePath path = k)) as [<-|Hne].
        -- rewrite lookup_insert_eq. intros [= <-]. lia.
        -- rewrite lookup_insert_ne by assumption. intros H. apply Hq in H. lia.
      * intros k1 k2 qref.
        destruct (decide (normalizePath path = k1)) as [<-|Hne1];
          destruct (decide (normalizePath path = k2)) as [<-|Hne2];
          rewrite ?lookup_insert_eq, ?lookup_insert_ne by assumption.
        -- reflexivity.
        -- intros [= <-] H. apply Hq in H. lia.
        -- intros H [= <-]. apply Hq in H. lia.
        -- apply Hinj.
Qed.

Lemma view_finalizeLock r path ownerID :
  live_wf r ->
  live_view (fst (Live.finalizeLock r path ownerID))
  = fst (finalizeLock (live_view r) path ownerID)
  /\ live_wf (fst (Live.finalizeLock r path ownerID)).
Proof.
  intros Hwf. unfold Live.finalizeLock, finalizeLock. live_simpl.
  destruct (Live.pathLocks r !! normalizePath path) as [l|]; [|split; [reflexivity|exact Hwf]].
  destruct (_ && _); split; try reflexivity; exact Hwf.
Qed.

Lemma view_clearLocks r :
  live_wf r ->
  live_view (Live.clearLocks r) = clearLocks (live_view r) /\ live_wf (Live.clearLocks r).
Proof.
  intros (Hnd & Hlt & Hq & Hinj). split; [apply router_eq; reflexivity|].
  unfold live_wf, Live.clearLocks, Live.array_at in *. live_simpl. repeat split.
  - exact Hnd.
  - exact Hlt.
  - intros k qref H. rewrite lookup_empty in H. discriminate.
  - intros k1 k2 qref H. rewrite lookup_empty in H. discriminate.
Qed.

Lemma view_queueMessage r path data senderID receiverID priority now :
  live_wf r ->
  live_view (fst (Live.queueMessage r path data senderID receiverID priority now))
  = fst (queueMessage (live_view r) path data senderID receiverID priority now)
  /\ live_wf (fst (Live.queueMessage r path data senderID receiverID priority now)).
Proof.
  intros Hwf. unfold Live.queueMessage, queueMessage. cbv zeta. live_simpl.
  destruct (MAX_QUEUE_SIZE <=? length (Live.messageQueue r)); split;
    try reflexivity; exact Hwf.
Qed.

Lemma view_clearQueue r :
  live_wf r ->
  live_view (Live.clearQueue r) = clearQueue (live_view r) /\ live_wf (Live.clearQueue r).
Proof. intros Hwf. split; [reflexivity | exact Hwf]. Qed.

End LiveView.

Section LiveSimulation.
Variable behaviour : list Call -> list Op.
Hypothesis behaviour_quiet : forall history, behaviour history = [].

Lemma quiet_all calls : quiet behaviour calls.
Proof. intros history c _. apply behaviour_quiet. Qed.

(** Immediate dispatch with quiet callbacks, whatever the fuel. *)
Lemma processMessageImmediate_quiet fuel r history message senderPath res :
  Live.processMessageImmediate (Live.invoke behaviour fuel) fuel (r, history) message senderPath
    = Some res ->
  res = ((r, history ++ fst (processMessageImmediate (live_view r) message senderPath)),
         snd (processMessageImmediate (live_view r) message senderPath)).
Proof.
  destruct fuel as [|f]; [|apply processMessageImmediate_sound, quiet_all].
  rewrite processMessageImmediate_eq. unfold Live.processMessageImmediate.
  cbv zeta. cbn [fst snd live_view pathLocks listeners].
  case_bool_decide as Hl.
  - cbn. rewrite app_nil_r. intros [= <-]. reflexivity.
  - rewrite validateMessageLock_view, validateMessageLock_unlocked.
    2:{ cbn. destruct (Live.pathLocks r !! _); [exfalso; eauto | reflexivity]. }
    cbn [negb fst snd]. unfold dispatch.
    destruct (getBubblingPaths (msg_path message)); [|discriminate].
    cbn. rewrite app_nil_r. intros [= <-]. reflexivity.
Qed.

Lemma view_sendMessage fuel r history path data senderID receiverID queueIfLocked now res :
  live_wf r ->
  Live.sendMessage (Live.invoke behaviour fuel) fuel (r, history)
                   path data senderID receiverID queueIfLocked now = Some res ->
  live_view (fst (fst res))
  = fst (fst (sendMessage (live_view r) path data senderID receiverID queueIfLocked now))
  /\ snd (fst res)
     = history
       ++ snd (fst (sendMessage (live_view r) path data senderID receiverID queueIfLocked now))
  /\ live_wf (fst (fst res)).
Proof.
  intros Hwf. pose proof Hwf as (Hnd & Hlt & Hq & Hinj).
  unfold Live.sendMessage, sendMessage. cbv zeta. live_simpl.
  case_bool_decide as Hl.
  - destruct queueIfLocked.
    + rewrite lookup_fmap.
      destruct (Live.lockedPathQueues r !! normalizePath path) as [qref|] eqn:E;
        cbn [fmap option_fmap option_map default from_option id];
        intros [= <-]; cbn [fst snd]; rewrite app_nil_r.
      * split; [|split; [reflexivity|]].
        -- apply router_eq; try reflexivity. live_simpl.
           rewrite <- (insert_id (Live.lockedPathQueues r) _ _ E) at 1.
           apply (view_queues_write (Live.set_nextMessageId r (S (Live.nextMessageId r))));
             [reflexivity|].
           intros k' Hk'. eapply Hinj; eauto.
        -- unfold live_wf, Live.array_at in *. live_simpl. repeat split; assumption.
      * split; [|split; [reflexivity|]].
        -- apply router_eq; try reflexivity. live_simpl.
           apply (view_queues_write (Live.set_nextMessageId r (S (Live.nextMessageId r))));
             [reflexivity|].
           intros k' Hk'. apply Hq in Hk'. lia.
        -- unfold live_wf, Live.array_at in *. live_simpl. repeat split.
           ++ exact Hnd.
           ++ intros ref Hin. apply Nat.lt_lt_succ_r, Hlt, Hin.
           ++ intros k qref. destruct (decide (normalizePath path = k)) as [<-|Hne].
              ** rewrite lookup_insert_eq. intros [= <-]. lia.
              ** rewrite lookup_insert_ne by assumption. intros H. apply Hq in H. lia.
           ++ intros k1 k2 qref.
              destruct (decide (normalizePath path = k1)) as [<-|Hne1];
                destruct (decide (normalizePath path = k2)) as [<-|Hne2];
                rewrite ?lookup_insert_eq, ?lookup_insert_ne by assumption.
              ** reflexivity.
              ** intros [= <-] H. apply Hq in H. lia.
              ** intros H [= <-]. apply Hq in H. lia.
              ** apply Hinj.
    + intros [= <-]. cbn [fst snd]. rewrite app_nil_r.
      split; [reflexivity|]. split; [reflexivity|].
      unfold live_wf, Live.array_at in *. live_simpl. repeat split; assumption.
  - intros H. apply processMessageImmediate_quiet in H. subst res. cbn [fst snd].
    match goal with |- context [processMessageImmediate ?r0 ?m ?s] =>
      destruct (processMessageImmediate r0 m s) as [cs b] eqn:E end.
    cbn [fst snd].
    match type of E with processMessageImmediate ?r0 _ _ = _ =>
      change r0 with (live_view (Live.set_nextMessageId r (S (Live.nextMessageId r)))) in E
    end.
    rewrite E. cbn [fst snd].
    split; [reflexivity|]. split; [reflexivity|].
    unfold live_wf, Live.array_at in *. live_simpl. repeat split; assumption.
Qed.

Lemma live_wf_frame r r' :
  Live.array_at r' (Live.listeners r') = Live.array_at r (Live.listeners r) ->
  Live.nextRef r' = Live.nextRef r ->
  Live.lockedPathQueues r' = Live.lockedPathQueues r ->
  live_wf r -> live_wf r'.
Proof. unfold live_wf. intros -> -> ->. auto. Qed.

Lemma view_unlockPath fuel r history path ownerID res :
  live_wf r ->
  Live.unlockPath (Live.invoke behaviour fuel) fuel (r, history) path ownerID = Some res ->
  live_view (fst (fst res)) = fst (fst (unlockPath (live_view r) path ownerID))
  /\ snd (fst res) = history ++ snd (fst (unlockPath (live_view r) path ownerID))
  /\ live_wf (fst (fst res)).
Proof.
  intros Hwf. pose proof Hwf as (Hnd & Hlt & Hq & Hinj).
  unfold Live.unlockPath, unlockPath. cbv zeta. live_simpl.
  destruct (Live.pathLocks r !! normalizePath path) as [lock|];
    [|intros [= <-]; cbn [fst snd]; rewrite app_nil_r; auto].
  destruct (lock_finalized lock);
    [intros [= <-]; cbn [fst snd]; rewrite app_nil_r; auto|].
  destruct (_ && _); [intros [= <-]; cbn [fst snd]; rewrite app_nil_r; auto|].
  rewrite lookup_fmap.
  set (r1 := Live.set_pathLocks r (delete (normalizePath path) (Live.pathLocks r))).
  assert (Hst2 : forall st2,
    match Live.lockedPathQueues r !! normalizePath path with
    | Some qref => Live.replay_loop (Live.invoke behaviour fuel) fuel (r1, history) qref 0
    | None => Some (r1, history)
    end = Some st2 ->
    st2 = (r1, history ++ replay (live_view r1)
                            (default [] (Live.queue_at r <$>
                                           Live.lockedPathQueues r !! normalizePath path)))).
  { intros st2. destruct (Live.lockedPathQueues r !! normalizePath path) as [qref|].
    - destruct fuel as [|f]; [discriminate|]. intros H.
      apply replay_loop_sound in H; [|apply quiet_all]. rewrite H.
      unfold replayed_from. rewrite drop_0, replay_live_calls. reflexivity.
    - intros [= <-]. cbn. rewrite app_nil_r. reflexivity. }
  destruct (match Live.lockedPathQueues r !! normalizePath path with
            | Some qref => _ | None => _ end) as [st2|]; [|discriminate].
  specialize (Hst2 st2 eq_refl). subst st2. cbn [mbind option_bind fst snd].
  intros [= <-]. cbn [fst snd]. split; [|split; [reflexivity|]].
  - apply router_eq; try reflexivity. live_simpl. subst r1. live_simpl.
    apply fmap_delete.
  - unfold live_wf, Live.array_at in *. subst r1. live_simpl. repeat split.
    + exact Hnd.
    + exact Hlt.
    + intros k qref H. apply lookup_delete_Some in H as [_ H]. eapply Hq; eauto.
    + intros k1 k2 qref H1 H2. apply lookup_delete_Some in H1 as [_ H1].
      apply lookup_delete_Some in H2 as [_ H2]. eapply Hinj; eauto.
Qed.

Lemma view_processQueue fuel r history st' :
  live_wf r ->
  Live.processQueue (Live.invoke behaviour fuel) fuel (r, history) = Some st' ->
  live_view (fst st') = fst (processQueue (live_view r))
  /\ snd st' = history ++ snd (processQueue (live_view r))
  /\ live_wf (fst st').
Proof.
  intros Hwf H. rewrite processQueue_eq. cbn [fst snd].
  assert (Hst : st' = (Live.set_messageQueue r [],
                       history ++ replay (live_view r)
                                    (js_sort byPriority (Live.messageQueue r)))).
  { unfold Live.processQueue in H. cbn [fst snd] in H. destruct fuel as [|f].
    - cbn [Live.processQueue_loop fst Live.messageQueue Live.set_messageQueue] in H.
      destruct (js_sort byPriority (Live.messageQueue r)); [|discriminate].
      injection H as <-. cbn. rewrite app_nil_r. reflexivity.
    - apply live_processQueue_loop_sound in H; [exact H | apply quiet_all]. }
  subst st'. cbn [fst snd]. split; [reflexivity|]. split; [reflexivity|].
  revert Hwf. apply live_wf_frame; reflexivity.
Qed.

(** With quiet callbacks a public call does to the live router what it
    does to the plain one. *)
Lemma view_exec fuel r history op st' :
  live_wf r ->
  Live.exec behaviour fuel (r, history) op = Some st' ->
  live_view (fst st') = fst (step (live_view r) op)
  /\ snd st' = history ++ snd (step (live_view r) op)
  /\ live_wf (fst st').
Proof.
  intros Hwf. unfold Live.exec, Live.exec_op. cbn [fst snd].
  destruct op; cbn [step fst snd]; rewrite ?app_nil_r.
  - intros [= <-]. cbn [fst snd].
    destruct (view_addListener r path callback ownerID now Hwf); auto.
  - intros [= <-]. cbn [fst snd]. destruct (view_removeListener r listenerId Hwf); auto.
  - intros [= <-]. cbn [fst snd].
    destruct (view_removeListeners_loop listenerIds r 0 0 Hwf); auto.
  - intros [= <-]. cbn [fst snd]. destruct (view_removeListenersByPath r path Hwf); auto.
  - intros [= <-]. cbn [fst snd]. destruct (view_removeListenersByOwner r ownerID Hwf); auto.
  - intros [= <-]. cbn [fst snd].
    destruct (view_setListenerActive r listenerId active Hwf); auto.
  - intros [= <-]. cbn [fst snd]. destruct (view_clearListeners r Hwf); auto.
  - intros [= <-]. cbn [fst snd].
    destruct (view_lockPath r path mode ownerID senderID receiverID now Hwf); auto.
  - destruct (Live.unlockPath _ _ _ _ _) as [res|] eqn:E; [|discriminate].
    cbn. intros [= <-]. eapply view_unlockPath; eauto.
  - intros [= <-]. cbn [fst snd]. destruct (view_finalizeLock r path ownerID Hwf); auto.
  - intros [= <-]. cbn [fst snd]. destruct (view_clearLocks r Hwf); auto.
  - destruct (Live.sendMessage _ _ _ _ _ _ _ _ _) as [res|] eqn:E; [|discriminate].
    cbn. intros [= <-]. eapply view_sendMessage; eauto.
  - intros [= <-]. cbn [fst snd].
    destruct (view_queueMessage r path data senderID receiverID priority now Hwf); auto.
  - apply view_processQueue. exact Hwf.
  - intros [= <-]. cbn [fst snd]. destruct (view_clearQueue r Hwf); auto.
Qed.

Lemma view_run_script fuel ops : forall r history st',
  live_wf r ->
  Live.run_script (Live.exec behaviour fuel) (r, history) ops = Some st' ->
  live_view (fst st') = fst (run (live_view r) ops)
  /\ snd st' = history ++ snd (run (live_view r) ops)
  /\ live_wf (fst st').
Proof.
  induction ops as [|op ops IH]; intros r history st' Hwf.
  - cbn. rewrite app_nil_r. intros [= <-]. auto.
  - cbn [Live.run_script run].
    destruct (Live.exec behaviour fuel (r, history) op) as [[r1 h1]|] eqn:E; [|discriminate].
    apply view_exec in E as (Hv & Hh & Hw); [|exact Hwf]. cbn [fst snd] in *.
    cbn [mbind option_bind]. intros H. apply IH in H as (Hv2 & Hh2 & Hw2); [|exact Hw].
    destruct (step (live_view r) op) as [r1' c1] eqn:Es. cbn [fst snd] in *.
    rewrite Hv in *. destruct (run r1' ops) as [r2' c2]. cbn [fst snd] in *.
    rewrite Hv2, Hh2, Hh, app_assoc. auto.
Qed.

(** With quiet callbacks every public call returns, given enough fuel. *)
Lemma exec_total r history op :
  exists f0 st', forall fuel, f0 <= fuel ->
    Live.exec behaviour fuel (r, history) op = Some st'.
Proof.
  unfold Live.exec, Live.exec_op. cbn [fst snd].
  destruct op; try (exists 0; eexists; intros; reflexivity).
  - unfold Live.unlockPath. cbv zeta. cbn [fst snd].
    destruct (Live.pathLocks r !! normalizePath path) as [lock|];
      [|exists 0; eexists; intros; reflexivity].
    destruct (lock_finalized lock); [exists 0; eexists; intros; reflexivity|].
    destruct (_ && _); [exists 0; eexists; intros; reflexivity|].
    cbn [Live.lockedPathQueues Live.set_pathLocks].
    destruct (Live.lockedPathQueues r !! normalizePath path) as [qref|];
      [|exists 0; eexists; intros; reflexivity].
    set (r1 := Live.set_pathLocks r (delete (normalizePath path) (Live.pathLocks r))).
    exists (S (S (length (Live.queue_at r1 qref)
                  + length (Live.array_at r1 (Live.listeners r1))))).
    eexists. intros fuel Hf. destruct fuel as [|f]; [lia|].
    rewrite replay_loop_total; [reflexivity | apply quiet_all | lia].
  - unfold Live.sendMessage. cbv zeta. cbn [fst snd].
    destruct (bool_decide _).
    + destruct queueIfLocked; [|exists 0; eexists; intros; reflexivity].
      destruct (Live.lockedPathQueues _ !! _); exists 0; eexists; intros; reflexivity.
    + set (r1 := Live.set_nextMessageId r (S (Live.nextMessageId r))).
      exists (S (S (length (Live.array_at r1 (Live.listeners r1))))).
      eexists. intros fuel Hf. destruct fuel as [|f]; [lia|].
      rewrite processMessageImmediate_total; [reflexivity | apply quiet_all | lia].
  - unfold Live.processQueue. cbn [fst snd].
    set (r1 := Live.set_messageQueue r (js_sort byPriority (Live.messageQueue r))).
    exists (S (S (length (Live.messageQueue r1)
                  + length (Live.array_at r1 (Live.listeners r1))))).
    eexists. intros fuel Hf. destruct fuel as [|f]; [lia|].
    rewrite live_processQueue_loop_total; [reflexivity | apply quiet_all | lia].
Qed.

Lemma run_script_total ops : forall r history,
  exists f0 st', forall fuel, f0 <= fuel ->
    Live.run_script (Live.exec behaviour fuel) (r, history) ops = Some st'.
Proof.
  induction ops as [|op ops IH]; intros r history.
  - exists 0, (r, history). reflexivity.
  - destruct (exec_total r history op) as (f1 & [r1 h1] & H1).
    destruct (IH r1 h1) as (f2 & st2 & H2).
    exists (Nat.max f1 f2), st2. intros fuel Hf. cbn [Live.run_script].
    rewrite H1 by lia. cbn [mbind option_bind]. apply H2. lia.
Qed.

End LiveSimulation.

(** * Quiet callbacks: the live router and the plain router agree *)

(** X6.  When no callback ever calls back into the router, a sequence of
    public calls on a fresh router returns (with enough fuel for the
    loops), and what it returns is what the calls do on the plain router:
    the same listeners, queues, locks and counters, and the same callback
    invocations in the same order. *)
Theorem live_run_quiet_simulation (behaviour : list Call -> list Op) (ops : list Op) :
  (forall history, behaviour history = []) ->
  (exists f0 st, forall fuel, f0 <= fuel ->
     Live.run behaviour fuel Live.new_MessageRouter ops = Some st)
  /\ (forall fuel st,
        Live.run behaviour fuel Live.new_MessageRouter ops = Some st ->
        live_view (fst st) = fst (run new_MessageRouter ops)
        /\ snd st = snd (run new_MessageRouter ops)).
Proof.
  intros Hq. split.
  - apply run_script_total. exact Hq.
  - intros fuel st H. unfold Live.run in H.
    apply (view_run_script behaviour Hq) in H as (Hv & Hh & _); [|apply live_wf_new].
    rewrite live_view_new in *. cbn [fst] in *. split; [exact Hv | exact Hh].
Qed.

Lemma live_run_quiet_simulation_witness :
  option_map (fun st => map (fun c => msg_data (call_message c)) (snd st))
    (Live.run (fun _ => []) 9 Live.new_MessageRouter
       [OpAddListener "/x" 1 "app" 0%Z;
        OpLockPath "/x" LockMode.STRICT "O" "S" "" 0%Z;
        OpSendMessage "/x" "d1" "S" "" true 1%Z;
        OpSendMessage "/x" "d2" "S" "" true 2%Z;
        OpUnlockPath "/x" "O"])
  = Some ["d1"; "d2"].
Proof.
  destruct (Live.run _ _ _ _) as [st|] eqn:E; [|vm_compute in E; discriminate].
  cbn [option_map].
  apply (proj2 (live_run_quiet_simulation (fun _ => []) _ ltac:(reflexivity))) in E
    as [_ ->].
  vm_compute. reflexivity.
Defined.

(** X5.  When no callback ever calls back into the router, after every
    sequence of public calls on a fresh router a path has a lock record
    if and only if it has an entry in [lockedPathQueues]. *)
Theorem live_locks_have_queues_when_quiet
    (behaviour : list Call -> list Op) (ops : list Op) (fuel : nat) (st : Live.State) :
  (forall history, behaviour history = []) ->
  Live.run behaviour fuel Live.new_MessageRouter ops = Some st ->
  forall k, is_Some (Live.pathLocks (fst st) !! k)
            <-> is_Some (Live.lockedPathQueues (fst st) !! k).
Proof.
  intros Hq H k. unfold Live.run in H.
  apply (view_run_script behaviour Hq) in H as (Hv & _ & _); [|apply live_wf_new].
  rewrite live_view_new in Hv.
  assert (Hinv : locks_have_queues (live_view (fst st))).
  { rewrite Hv. apply run_invariant; [apply step_locks_have_queues|].
    intros k'. cbn. rewrite !lookup_empty. split; intros [? ?]; discriminate. }
  specialize (Hinv k). cbn [live_view pathLocks lockedPathQueues] in Hinv.
  rewrite lookup_fmap, fmap_is_Some in Hinv. exact Hinv.
Qed.

Lemma live_locks_have_queues_when_quiet_witness :
  match Live.run (fun _ => []) 0 Live.new_MessageRouter
          [OpAddListener "/x" 1 "app" 0%Z;
           OpLockPath "/x" LockMode.STRICT "O" "S" "" 0%Z;
           OpSendMessage "/x" "d1" "S" "" true 1%Z]
  with
  | Some st => is_Some (Live.lockedPathQueues (fst st) !! "/x")
  | None => False
  end.
Proof.
  destruct (Live.run _ _ _ _) as [st|] eqn:E; [|vm_compute in E; discriminate].
  pose proof (proj1 (live_locks_have_queues_when_quiet (fun _ => []) _ _ _
                       ltac:(reflexivity) E "/x")) as H.
  vm_compute in E. injection E as <-. apply H. vm_compute. eauto.
Defined.

(** The pairing of X5 fails when a callback locks the path again during
    the replay of [unlockPath]: the second queued message is blocked, the
    queue entry is deleted, and the new lock record stays without one. *)
Example live_relock_during_replay :
  option_map (fun st => (map (fun c => msg_data (call_message c)) (snd st),
                         bool_decide (is_Some (Live.pathLocks (fst st) !! "/x")),
                         bool_decide (is_Some (Live.lockedPathQueues (fst st) !! "/x"))))
    (Live.exec (on_handle 1 [OpLockPath "/x" LockMode.STRICT "O" "S" "" 3%Z]) 9
               (live_unlock_demo, []) (OpUnlockPath "/x" "O"))
  = Some (["d1"], true, false).
Proof. vm_compute. reflexivity. Qed.

(** A listener that removes itself while it is being dispatched to makes
    the loop over [this.listeners] skip the listener after it. *)
Example live_removeListener_during_dispatch :
  map lst_id (Live.listeners_now live_pair_demo) = [1; 2]
  /\ option_map (fun st => (map call_callback (snd st),
                            map lst_id (Live.listeners_now (fst st))))
       (Live.exec (on_handle 1 [OpRemoveListener 1]) 9
                  (live_pair_demo, []) (OpSendMessage "/x" "d" "" "" true 0%Z))
     = Some ([1], [2]).
Proof. split; vm_compute; reflexivity. Qed.

Lemma live_unlockPath_replays_in_order_witness :
  option_map (fun res => (map (fun c => msg_data (call_message c)) (snd (fst res)),
                          snd res))
    (Live.unlockPath (Live.invoke (fun _ => []) 9) 9 (live_unlock_demo, []) "/x" "O")
  = Some (["d1"; "d2"], true).
Proof.
  rewrite (live_unlockPath_replays_in_order (fun _ => []) live_unlock_demo [] "/x" "O"
             {| lock_path := "/x"; lock_mode := LockMode.STRICT; lock_senderID := "S";
                lock_senderOwner := "O"; lock_receiverID := ""; lock_receiverOwner := "";
                lock_finalized := false; lock_timestamp := 0%Z |} 2 9
             ltac:(vm_compute; reflexivity) ltac:(vm_compute; reflexivity)
             ltac:(reflexivity) ltac:(left; reflexivity)
             ltac:(vm_compute; reflexivity)
             ltac:(vm_compute; repeat constructor)
             ltac:(intros h c _; reflexivity)
             ltac:(vm_compute; lia)).
  vm_compute. reflexivity.
Defined.

Lemma live_sendMessage_ignores_ancestor_locks_witness :
  is_Some (Live.pathLocks live_ancestor_demo !! "/a")
  /\ option_map (fun res => (map (fun c => (call_callback c, call_path c)) (snd (fst res)),
                             snd res))
       (Live.sendMessage (Live.invoke (fun _ => []) 9) 9 (live_ancestor_demo, [])
                         "/a/b" "d" "S" "" true 0%Z)
     = Some ([(1, "/")], true).
Proof.
  split; [vm_compute; eauto|].
  rewrite (proj1 (proj2 (live_sendMessage_ignores_ancestor_locks (fun _ => [])
                           live_ancestor_demo [] "/a/b" "d" "S" "" true 0%Z
                           ltac:(vm_compute; reflexivity) ltac:(vm_compute; reflexivity))
                        ltac:(intros h c _; reflexivity)) 9 ltac:(vm_compute; lia)).
  vm_compute. reflexivity.
Defined.

(** * The live router with arbitrary callbacks *)

Section Atoms.
Variable Q : Op -> Prop.
Variable invoke : Live.State -> Call -> option Live.State.
Hypothesis invoke_atoms : forall st call st',
  invoke st call = Some st' -> rtc (atom Q) (fst st) (fst st').

Lemma listeners_loop_atoms fuel : forall st arr i message targetPath st',
  Live.listeners_loop invoke fuel st arr i message targetPath = Some st' ->
  rtc (atom Q) (fst st) (fst st').
Proof.
  induction fuel as [|fuel IH]; intros st arr i message targetPath st'; [discriminate|].
  cbn [Live.listeners_loop].
  destruct (Live.array_at (fst st) arr !! i) as [ref|]; [|intros [= <-]; reflexivity].
  destruct (Live.objects (fst st) !! ref) as [listener|]; [|apply IH].
  destruct (deliver message targetPath listener) as [|call ?]; [apply IH|].
  destruct (invoke st call) as [st1|] eqn:E; [|discriminate].
  cbn [mbind option_bind]. intros H. etrans; [eapply invoke_atoms; exact E|].
  eapply IH; exact H.
Qed.

Lemma paths_loop_atoms fuel targetPaths : forall st message st',
  Live.paths_loop invoke fuel st targetPaths message = Some st' ->
  rtc (atom Q) (fst st) (fst st').
Proof.
  induction targetPaths as [|targetPath rest IH]; intros st message st'.
  - intros [= <-]. reflexivity.
  - cbn [Live.paths_loop].
    destruct (Live.listeners_loop _ _ _ _ _ _ _) as [st1|] eqn:E; [|discriminate].
    cbn [mbind option_bind]. intros H.
    etrans; [eapply listeners_loop_atoms; exact E|]. eapply IH; exact H.
Qed.

Lemma processMessageImmediate_atoms fuel st message senderPath res :
  Live.processMessageImmediate invoke fuel st message senderPath = Some res ->
  rtc (atom Q) (fst st) (fst (fst res)).
Proof.
  unfold Live.processMessageImmediate. cbv zeta.
  destruct (bool_decide _); [intros [= <-]; reflexivity|].
  destruct (negb _); [intros [= <-]; reflexivity|].
  destruct (Live.paths_loop _ _ _ _ _) as [st1|] eqn:E; [|discriminate].
  cbn. intros [= <-]. cbn. eapply paths_loop_atoms; exact E.
Qed.

Lemma replay_loop_atoms fuel : forall st qref i st',
  Live.replay_loop invoke fuel st qref i = Some st' ->
  rtc (atom Q) (fst st) (fst st').
Proof.
  induction fuel as [|fuel IH]; intros st qref i st'; [discriminate|].
  cbn [Live.replay_loop].
  destruct (Live.queue_at (fst st) qref !! i) as [e|]; [|intros [= <-]; reflexivity].
  destruct (Live.processMessageImmediate _ _ _ _ _) as [[st1 b]|] eqn:E; [|discriminate].
  cbn [mbind option_bind]. intros H.
  etrans; [apply (processMessageImmediate_atoms _ _ _ _ _ E)|]. eapply IH; exact H.
Qed.

Lemma unlockPath_atoms fuel st path ownerID res :
  Q (OpUnlockPath path ownerID) ->
  Live.unlockPath invoke fuel st path ownerID = Some res ->
  rtc (atom Q) (fst st) (fst (fst res)).
Proof.
  intros HQ. unfold Live.unlockPath. cbv zeta.
  destruct (Live.pathLocks (fst st) !! normalizePath path) as [lock|] eqn:El;
    [|intros [= <-]; reflexivity].
  destruct (lock_finalized lock) eqn:Ef; [intros [= <-]; reflexivity|].
  destruct (_ && _); [intros [= <-]; reflexivity|].
  set (r1 := Live.set_pathLocks (fst st) _).
  assert (H1 : rtc (atom Q) (fst st) r1).
  { apply rtc_once. eapply atom_unlock_lock; eassumption. }
  destruct (match Live.lockedPathQueues r1 !! normalizePath path with
            | Some qref => _ | None => _ end) as [st2|] eqn:E; [|discriminate].
  cbn [mbind option_bind]. intros [= <-]. cbn [fst].
  etrans; [exact H1|].
  assert (H2 : rtc (atom Q) r1 (fst st2)).
  { destruct (Live.lockedPathQueues r1 !! normalizePath path) as [qref|].
    - apply (replay_loop_atoms _ _ _ _ _ E).
    - injection E as <-. reflexivity. }
  etrans; [exact H2|]. apply rtc_once. eapply atom_unlock_queue. exact HQ.
Qed.

Lemma sendMessage_atoms fuel st path data senderID receiverID queueIfLocked now res :
  Q (OpSendMessage path data senderID receiverID queueIfLocked now) ->
  Live.sendMessage invoke fuel st path data senderID receiverID queueIfLocked now
    = Some res ->
  rtc (atom Q) (fst st) (fst (fst res)).
Proof.
  intros HQ H.
  destruct (bool_decide (is_Some (Live.pathLocks (fst st) !! normalizePath path))) eqn:El.
  - apply rtc_once.
    apply (atom_send_locked Q (fst st) path data senderID receiverID queueIfLocked now
             (fst (fst res), [], snd res)); [exact HQ| |].
    + apply bool_decide_eq_true_1 in El. exact El.
    + revert H. unfold Live.sendMessage. cbv zeta.
      cbn [fst snd Live.pathLocks Live.set_nextMessageId]. rewrite El.
      destruct queueIfLocked; [|intros [= <-]; reflexivity].
      destruct (Live.lockedPathQueues _ !! _); intros [= <-]; reflexivity.
  - revert H. unfold Live.sendMessage. cbv zeta.
    cbn [fst snd Live.pathLocks Live.set_nextMessageId]. rewrite El. intros H.
    apply processMessageImmediate_atoms in H. cbn [fst] in H.
    etrans; [|exact H]. apply rtc_once. eapply atom_send_unlocked. exact HQ.
Qed.

Lemma processQueue_loop_atoms fuel : forall st st',
  Q OpProcessQueue ->
  Live.processQueue_loop invoke fuel st = Some st' ->
  rtc (atom Q) (fst st) (fst st').
Proof.
  induction fuel as [|fuel IH]; intros st st' HQ; cbn [Live.processQueue_loop].
  - destruct (Live.messageQueue (fst st)); [intros [= <-]; reflexivity | discriminate].
  - destruct (Live.messageQueue (fst st)) as [|e rest] eqn:Eq;
      [intros [= <-]; reflexivity|].
    destruct (Live.processMessageImmediate _ _ _ _ _) as [[st1 b]|] eqn:E; [|discriminate].
    cbn [mbind option_bind]. intros H.
    apply processMessageImmediate_atoms in E. cbn [fst] in E.
    etrans; [apply rtc_once; eapply atom_shift; [exact HQ | exact Eq]|].
    etrans; [exact E|]. apply IH; assumption.
Qed.

Lemma exec_op_atoms fuel st op st' :
  Q op ->
  Live.exec_op invoke fuel st op = Some st' ->
  rtc (atom Q) (fst st) (fst st').
Proof.
  intros HQ. destruct st as [r calls].
  destruct op;
    try (cbn [Live.exec_op fst snd]; intros [= <-]; apply rtc_once;
         eapply atom_plain; [exact HQ | reflexivity]).
  - cbn [Live.exec_op fst snd].
    destruct (Live.unlockPath _ _ _ _ _) as [res|] eqn:E; [|discriminate].
    cbn. intros [= <-]. apply (unlockPath_atoms _ _ _ _ _ HQ E).
  - cbn [Live.exec_op fst snd].
    destruct (Live.sendMessage _ _ _ _ _ _ _ _ _) as [res|] eqn:E; [|discriminate].
    cbn. intros [= <-]. apply (sendMessage_atoms _ _ _ _ _ _ _ _ _ HQ E).
  - cbn [Live.exec_op fst snd]. unfold Live.processQueue. cbn [fst snd]. intros H.
    apply processQueue_loop_atoms in H; [|exact HQ]. cbn [fst] in H.
    etrans; [|exact H]. apply rtc_once. apply atom_sort. exact HQ.
Qed.

End Atoms.

Section AtomsOfRun.
Variable Q : Op -> Prop.

Lemma run_script_atoms (exec : Live.State -> Op -> option Live.State) :
  (forall st op st', Q op -> exec st op = Some st' -> rtc (atom Q) (fst st) (fst st')) ->
  forall ops st st', Forall Q ops ->
    Live.run_script exec st ops = Some st' -> rtc (atom Q) (fst st) (fst st').
Proof.
  intros Hexec ops. induction ops as [|op ops IH]; intros st st' Hall.
  - intros [= <-]. reflexivity.
  - inversion Hall as [|? ? Hop Hrest]; subst. cbn [Live.run_script].
    destruct (exec st op) as [st1|] eqn:E; [|discriminate].
    cbn [mbind option_bind]. intros H.
    etrans; [eapply Hexec; eassumption|]. eapply IH; eassumption.
Qed.

Variable behaviour : list Call -> list Op.
Hypothesis behaviour_allowed : forall history, Forall Q (behaviour history).

Lemma invoke_atoms fuel : forall st call st',
  Live.invoke behaviour fuel st call = Some st' -> rtc (atom Q) (fst st) (fst st').
Proof.
  induction fuel as [|fuel IH]; intros st call st'; [discriminate|].
  cbn [Live.invoke]. intros H.
  apply run_script_atoms in H; [exact H| |apply behaviour_allowed].
  intros st1 op st1' HQ. apply exec_op_atoms; [exact IH | exact HQ].
Qed.

(** Every run of public calls, with the calls the callbacks make, is a
    sequence of atomic state changes. *)
Lemma run_atoms fuel ops st st' :
  Forall Q ops ->
  Live.run_script (Live.exec behaviour fuel) st ops = Some st' ->
  rtc (atom Q) (fst st) (fst st').
Proof.
  intros Hall. apply run_script_atoms; [|exact Hall].
  intros st1 op st1' HQ. apply exec_op_atoms; [apply invoke_atoms | exact HQ].
Qed.

Lemma run_invariant_live (P : Live.Router -> Prop) fuel ops st st' :
  (forall r r', atom Q r r' -> P r -> P r') ->
  Forall Q ops ->
  Live.run_script (Live.exec behaviour fuel) st ops = Some st' ->
  P (fst st) -> P (fst st').
Proof.
  intros HP Hall H. apply (run_atoms fuel ops st st' Hall) in H.
  induction H as [|r1 r2 r3 H12 _ IH]; [auto|]. intros H1. apply IH. eapply HP; eassumption.
Qed.

End AtomsOfRun.

Section AtomViews.
Variable Q : Op -> Prop.

Lemma live_plain_exec r op r' :
  live_plain r op = Some r' ->
  exists calls, Live.exec (fun _ => []) 0 (r, []) op = Some (r', calls).
Proof.
  unfold live_plain, Live.exec.
  destruct op; try discriminate; cbn; intros [= <-]; eexists; reflexivity.
Qed.

(** Each atomic state change keeps the heap well formed and is, through
    [live_view], a state change of the plain router. *)
Lemma atom_view r r' :
  atom Q r r' -> live_wf r -> live_wf r' /\ view_atom Q (live_view r) (live_view r').
Proof.
  intros Hatom Hwf. destruct Hatom as
    [r op r' HQ Hp | r path ownerID lock HQ Hl Hf | r path ownerID HQ
    | r path data senderID receiverID queueIfLocked now res HQ Hl Hs
    | r path data senderID receiverID queueIfLocked now HQ | r HQ | r e rest HQ He].
  - apply live_plain_exec in Hp as [calls Hp].
    apply (view_exec (fun _ => []) ltac:(reflexivity)) in Hp as (Hv & _ & Hw);
      [|exact Hwf].
    cbn [fst] in Hv, Hw. split; [exact Hw|]. rewrite Hv. apply view_step. exact HQ.
  - split; [revert Hwf; apply live_wf_frame; reflexivity|].
    apply (view_unlock_lock Q (live_view r) path ownerID lock HQ Hl Hf).
  - split.
    + destruct Hwf as (Hnd & Hlt & Hq & Hinj). unfold live_wf, Live.array_at in *.
      cbn [Live.set_lockedPathQueues Live.lockedPathQueues Live.listeners Live.arrays
           Live.nextRef].
      repeat split.
      * exact Hnd.
      * exact Hlt.
      * intros k qref H. apply lookup_delete_Some in H as [_ H]. eapply Hq; eauto.
      * intros k1 k2 qref H1 H2. apply lookup_delete_Some in H1 as [_ H1].
        apply lookup_delete_Some in H2 as [_ H2]. eapply Hinj; eauto.
    + replace (live_view (Live.set_lockedPathQueues r
                            (delete (normalizePath path) (Live.lockedPathQueues r))))
        with (set_lockedPathQueues (live_view r)
                (delete (normalizePath path) (lockedPathQueues (live_view r)))).
      * apply (view_unlock_queue Q (live_view r) path ownerID HQ).
      * apply router_eq; try reflexivity. cbn. symmetry. apply fmap_delete.
  - apply (view_sendMessage (fun _ => []) ltac:(reflexivity) 0) in Hs as (Hv & _ & Hw);
      [|exact Hwf].
    split; [exact Hw|]. rewrite Hv.
    apply (view_step Q (live_view r)
             (OpSendMessage path data senderID receiverID queueIfLocked now) HQ).
  - split; [revert Hwf; apply live_wf_frame; reflexivity|].
    apply (view_message_id Q (live_view r)).
  - split; [revert Hwf; apply live_wf_frame; reflexivity|].
    apply (view_sort Q (live_view r)).
  - split; [revert Hwf; apply live_wf_frame; reflexivity|].
    apply (view_shift Q (live_view r) e rest He).
Qed.

Variable behaviour : list Call -> list Op.
Hypothesis behaviour_allowed : forall history, Forall Q (behaviour history).

(** A property of the plain router that every atomic state change keeps
    holds on the live router after every run, whatever the callbacks
    do. *)
Lemma live_run_invariant (P : Router -> Prop) fuel ops st st' :
  (forall v v', view_atom Q v v' -> P v -> P v') ->
  Forall Q ops ->
  Live.run_script (Live.exec behaviour fuel) st ops = Some st' ->
  live_wf (fst st) -> P (live_view (fst st)) ->
  live_wf (fst st') /\ P (live_view (fst st')).
Proof.
  intros HP Hall H Hwf H0.
  apply (run_invariant_live Q behaviour behaviour_allowed
           (fun r => live_wf r /\ P (live_view r)) fuel ops st st'); auto.
  intros r r' Hatom [Hw Hp]. apply atom_view in Hatom as [Hw' Hv]; [|exact Hw].
  split; [exact Hw'|]. eapply HP; eassumption.
Qed.

End AtomViews.

Lemma Forall_any_op (ops : list Op) : Forall any_op ops.
Proof. apply Forall_forall. intros; exact I. Qed.

Lemma view_atom_queue_bound Q v v' :
  view_atom Q v v' ->
  length (messageQueue v) <= MAX_QUEUE_SIZE -> length (messageQueue v') <= MAX_QUEUE_SIZE.
Proof.
  intros H Hb. destruct H as [v op _| | | | |v e rest He]; cbn [messageQueue
    set_pathLocks set_lockedPathQueues set_nextMessageId set_messageQueue]; try exact Hb.
  - apply step_queue_bound. exact Hb.
  - rewrite length_js_sort. exact Hb.
  - rewrite He in Hb. cbn in Hb. lia.
Qed.

Lemma view_atom_keeps_finalized v v' k :
  view_atom not_clearLocks v v' -> finalized_at v k -> finalized_at v' k.
Proof.
  intros H Hfin. destruct H as [v op HQ|v path ownerID lock _ Hl Hf| | | |]; try exact Hfin.
  - apply step_keeps_finalized; assumption.
  - destruct Hfin as (lock' & Hl' & Hf'). exists lock'. split; [|exact Hf'].
    cbn [set_pathLocks pathLocks]. rewrite lookup_delete_ne; [exact Hl'|].
    intros <-. rewrite Hl in Hl'. injection Hl' as <-. congruence.
Qed.

Lemma view_atom_queues_addressed Q v v' :
  view_atom Q v v' -> queues_addressed v -> queues_addressed v'.
Proof.
  intros H Ha. destruct H as [v op _| |v path ownerID _| | |]; try exact Ha.
  - apply step_queues_addressed. exact Ha.
  - intros k queue. cbn [set_lockedPathQueues lockedPathQueues]. intros Hk.
    apply lookup_delete_Some in Hk as [_ Hk]. eapply Ha; exact Hk.
Qed.

(** X7.  Whatever the callbacks do, the global queue never holds more
    than [MAX_QUEUE_SIZE] = 50 entries after a sequence of public calls
    on a fresh router has returned. *)
Theorem live_queue_bounded
    (behaviour : list Call -> list Op) (fuel : nat) (ops : list Op) (st : Live.State) :
  Live.run behaviour fuel Live.new_MessageRouter ops = Some st ->
  length (Live.messageQueue (fst st)) <= MAX_QUEUE_SIZE /\ MAX_QUEUE_SIZE = 50.
Proof.
  intros H. split; [|reflexivity]. unfold Live.run in H.
  apply (live_run_invariant any_op behaviour (fun h => Forall_any_op _)
           (fun v => length (messageQueue v) <= MAX_QUEUE_SIZE)) in H.
  - exact (proj2 H).
  - intros v v'. apply view_atom_queue_bound.
  - apply Forall_any_op.
  - apply live_wf_new.
  - cbn. unfold MAX_QUEUE_SIZE. lia.
Qed.

Lemma live_queue_bounded_witness :
  match Live.run requeue_behaviour 9 Live.new_MessageRouter
          [OpAddListener "/" 1 "app" 0%Z;
           OpQueueMessage "/t" "one" "" "" 1%Z 0%Z;
           OpQueueMessage "/t" "five" "" "" 5%Z 0%Z;
           OpProcessQueue]
  with
  | Some st => length (Live.messageQueue (fst st)) <= 50
  | None => False
  end.
Proof.
  destruct (Live.run _ _ _ _) as [st|] eqn:E; [|vm_compute in E; discriminate].
  apply (live_queue_bounded _ _ _ _ E).
Defined.

Lemma live_setup_wf ops : live_wf (live_setup ops).
Proof.
  unfold live_setup, Live.run.
  destruct (Live.run_script _ _ _) as [st|] eqn:E; [|apply live_wf_new].
  apply (view_run_script (fun _ => []) ltac:(reflexivity)) in E as (_ & _ & Hw);
    [exact Hw | apply live_wf_new].
Qed.

(** X8.  Whatever the callbacks do, a finalized lock stays in place and
    finalized through every sequence of public calls, as long as neither
    the client nor a callback calls [clearLocks]; [lockPath] and
    [unlockPath] then fail on its path and change nothing. *)
Theorem live_finalized_lock_stays
    (behaviour : list Call -> list Op) (fuel : nat) (r : Live.Router)
    (history : list Call) (ops : list Op) (st : Live.State) (k : string) :
  (forall history, Forall not_clearLocks (behaviour history)) ->
  Forall not_clearLocks ops ->
  live_wf r ->
  live_finalized_at r k ->
  Live.run_script (Live.exec behaviour fuel) (r, history) ops = Some st ->
  live_finalized_at (fst st) k
  /\ forall path, normalizePath path = k ->
       (forall mode o s rc now,
          Live.lockPath (fst st) path mode o s rc now = (fst st, false))
       /\ (forall o f h, Live.unlockPath (Live.invoke behaviour f) f (fst st, h) path o
                         = Some (fst st, h, false)).
Proof.
  intros Hb Hops Hwf Hfin H.
  apply (live_run_invariant not_clearLocks behaviour Hb
           (fun v => finalized_at v k)) in H.
  - destruct H as [_ (lock & Hl & Hf)]. cbn [live_view pathLocks] in Hl.
    split; [exists lock; auto|]. intros path <-. split.
    + intros. unfold Live.lockPath. cbv zeta. rewrite Hl, Hf. reflexivity.
    + intros. unfold Live.unlockPath. cbv zeta. cbn [fst snd]. rewrite Hl, Hf.
      reflexivity.
  - intros v v'. apply view_atom_keeps_finalized.
  - exact Hops.
  - exact Hwf.
  - exact Hfin.
Qed.

(** X9.  Whatever the callbacks do, after a sequence of public calls on a
    fresh router every message held in a per-path queue is addressed to
    the path the queue is filed under, and the heap is well formed:
    [this.listeners] holds no listener object twice and no two paths
    share a queue array. *)
Theorem live_queues_stay_addressed
    (behaviour : list Call -> list Op) (fuel : nat) (ops : list Op) (st : Live.State) :
  Live.run behaviour fuel Live.new_MessageRouter ops = Some st ->
  live_queues_addressed (fst st) /\ live_wf (fst st).
Proof.
  intros H. unfold Live.run in H.
  apply (live_run_invariant any_op behaviour (fun h => Forall_any_op _)
           queues_addressed) in H.
  - destruct H as [Hwf Ha]. split; [|exact Hwf].
    intros k qref Hk. apply (Ha k). cbn [live_view lockedPathQueues].
    rewrite lookup_fmap, Hk. reflexivity.
  - intros v v'. apply view_atom_queues_addressed.
  - apply Forall_any_op.
  - apply live_wf_new.
  - intros k queue. cbn. rewrite lookup_fmap, lookup_empty. discriminate.
Qed.

Lemma live_queues_stay_addressed_witness :
  match Live.run (on_handle 1 [OpSendMessage "/x" "echo" "S" "" true 5%Z]) 9
          Live.new_MessageRouter
          [OpAddListener "/" 1 "app" 0%Z;
           OpLockPath "/x" LockMode.STRICT "O" "S" "" 0%Z;
           OpSendMessage "/y" "d" "S" "" true 1%Z]
  with
  | Some st => live_queues_addressed (fst st)
  | None => False
  end.
Proof.
  destruct (Live.run _ _ _ _) as [st|] eqn:E; [|vm_compute in E; discriminate].
  apply (proj1 (live_queues_stay_addressed _ _ _ _ E)).
Defined.

Lemma live_finalized_lock_stays_witness :
  match Live.run_script (Live.exec unlocking_behaviour 9) (live_finalized_demo, [])
          [OpSendMessage "/y" "d" "S" "" true 1%Z; OpFinalizeLock "/x" "O"]
  with
  | Some st => live_finalized_at (fst st) "/x"
  | None => False
  end.
Proof.
  destruct (Live.run_script _ _ _) as [st|] eqn:E; [|vm_compute in E; discriminate].
  apply (proj1 (live_finalized_lock_stays unlocking_behaviour 9 live_finalized_demo []
                  [OpSendMessage "/y" "d" "S" "" true 1%Z; OpFinalizeLock "/x" "O"]
                  st "/x"
                  ltac:(intros h; unfold unlocking_behaviour, on_handle;
                        destruct (last h); [case_bool_decide|];
                        repeat constructor)
                  ltac:(repeat constructor)
                  (live_setup_wf _)
                  ltac:(eexists; split; vm_compute; reflexivity)
                  E)).
Defined.
